(** * Fault-tolerant access layer of the Azure DevOps MCP server

    A shallow embedding of [src/circuit_breaker.py], [src/rate_limiter.py]
    and the retry loop of [src/azure_client.py], with the properties the
    specification states about them.

    Conventions of the embedding.
    - Python [int] is [Z]; Python [float] (clock readings, durations, delays)
      is the rational type [Q], so arithmetic on times is exact.
    - [time.monotonic()] is an explicit argument [now] of every method that
      reads the clock; a call of the client carries the clock in the state
      it runs in, where requests and sleeps advance it.
    - Objects mutated in place are threaded as explicit state: a method
      [m(self, ...)] becomes a function returning the new [self] (and the
      return value, if any).
    - The body of a [with self._lock:] block is one atomic function. *)

From Stdlib Require Import ZArith NArith QArith Lqa Lia List Sorted Ascii.
From stdpp Require Import base option list sorting gmap strings.
Import ListNotations.

Local Open Scope Z_scope.

(** ** Comparisons on floats *)

(** Python's [a > b]. *)
Definition Qgt_bool (a b : Q) : bool := negb (Qle_bool a b).

(** Python's [a < b]. *)
Definition Qlt_bool (a b : Q) : bool := negb (Qle_bool b a).

(** ** circuit_breaker.py *)

Module Breaker.

(** [class CircuitState(enum.Enum)] *)
Inductive CircuitState : Type := CLOSED | OPEN | HALF_OPEN.

(** The string token of each member ([CircuitState.X.value]). *)
Definition value (s : CircuitState) : string :=
  match s with
  | CLOSED => "closed"
  | OPEN => "open"
  | HALF_OPEN => "half_open"
  end.

(** The attributes of a [CircuitBreaker] instance (the lock apart). *)
Record CircuitBreaker : Type := mkCircuitBreaker {
  _failure_threshold : Z;
  _cooldown_seconds : Q;
  _success_threshold : Z;
  _state : CircuitState;
  _failure_count : Z;
  _success_count : Z;
  _opened_at : Q
}.

(** [CircuitBreaker.__init__] *)
Definition __init__ (failure_threshold : Z) (cooldown_seconds : Q)
    (success_threshold : Z) : CircuitBreaker :=
  {| _failure_threshold := failure_threshold;
     _cooldown_seconds := cooldown_seconds;
     _success_threshold := success_threshold;
     _state := CLOSED;
     _failure_count := 0;
     _success_count := 0;
     _opened_at := 0%Q |}.

(** Default arguments of [__init__]. *)
Definition default_failure_threshold : Z := 5.
Definition default_cooldown_seconds : Q := 60%Q.
Definition default_success_threshold : Z := 1.

(** Attribute assignments [self._x = v]. *)
Definition set_state (s : CircuitState) (self : CircuitBreaker) :=
  mkCircuitBreaker (_failure_threshold self) (_cooldown_seconds self)
    (_success_threshold self) s (_failure_count self) (_success_count self)
    (_opened_at self).
Definition set_failure_count (n : Z) (self : CircuitBreaker) :=
  mkCircuitBreaker (_failure_threshold self) (_cooldown_seconds self)
    (_success_threshold self) (_state self) n (_success_count self)
    (_opened_at self).
Definition set_success_count (n : Z) (self : CircuitBreaker) :=
  mkCircuitBreaker (_failure_threshold self) (_cooldown_seconds self)
    (_success_threshold self) (_state self) (_failure_count self) n
    (_opened_at self).
Definition set_opened_at (t : Q) (self : CircuitBreaker) :=
  mkCircuitBreaker (_failure_threshold self) (_cooldown_seconds self)
    (_success_threshold self) (_state self) (_failure_count self)
    (_success_count self) t.

(** [_maybe_transition_to_half_open]: the lazy Open -> HalfOpen check. *)
Definition _maybe_transition_to_half_open (now : Q) (self : CircuitBreaker)
    : CircuitBreaker :=
  match _state self with
  | OPEN =>
      if Qle_bool (_cooldown_seconds self) (now - _opened_at self)
      then set_success_count 0 (set_state HALF_OPEN self)
      else self
  | _ => self
  end.

(** The [state] property. *)
Definition state (now : Q) (self : CircuitBreaker)
    : CircuitBreaker * CircuitState :=
  let self := _maybe_transition_to_half_open now self in
  (self, _state self).

(** [allow_request] *)
Definition allow_request (now : Q) (self : CircuitBreaker)
    : CircuitBreaker * bool :=
  let self := _maybe_transition_to_half_open now self in
  match _state self with
  | CLOSED => (self, true)
  | HALF_OPEN => (self, true)
  | OPEN => (self, false)
  end.

(** [record_success] *)
Definition record_success (self : CircuitBreaker) : CircuitBreaker :=
  match _state self with
  | HALF_OPEN =>
      let self := set_success_count (_success_count self + 1) self in
      if _success_threshold self <=? _success_count self
      then set_success_count 0 (set_failure_count 0 (set_state CLOSED self))
      else self
  | CLOSED => set_failure_count 0 self
  | OPEN => self
  end.

(** [record_failure] *)
Definition record_failure (now : Q) (self : CircuitBreaker) : CircuitBreaker :=
  match _state self with
  | HALF_OPEN =>
      set_success_count 0 (set_opened_at now (set_state OPEN self))
  | CLOSED =>
      let self := set_failure_count (_failure_count self + 1) self in
      if _failure_threshold self <=? _failure_count self
      then set_opened_at now (set_state OPEN self)
      else self
  | OPEN => self
  end.

(** The public operations, each with the clock reading of the call, and
    the breaker after a sequence of them. *)
Inductive Op : Type :=
| AllowRequest (now : Q)
| State (now : Q)
| RecordSuccess
| RecordFailure (now : Q).

Definition step (self : CircuitBreaker) (o : Op) : CircuitBreaker :=
  match o with
  | AllowRequest now => fst (allow_request now self)
  | State now => fst (state now self)
  | RecordSuccess => record_success self
  | RecordFailure now => record_failure now self
  end.

Definition run (ops : list Op) (self : CircuitBreaker) : CircuitBreaker :=
  fold_left step ops self.

(** Consecutive [record_failure] calls, at the given clock readings. *)
Definition record_failures (ts : list Q) (self : CircuitBreaker)
    : CircuitBreaker :=
  fold_left (fun b t => record_failure t b) ts self.

(** The reading of the specification's invariant on one call [o] made on
    the breaker [b]: a call that leaves CLOSED leaves [_failure_count] at 0,
    and a call that leaves HALF_OPEN leaves [_success_count] at 0. *)
Definition counters_reset_on_leave (b : CircuitBreaker) (o : Op) : Prop :=
  let b' := step b o in
  (_state b = CLOSED -> _state b' <> CLOSED -> _failure_count b' = 0)
  /\ (_state b = HALF_OPEN -> _state b' <> HALF_OPEN -> _success_count b' = 0).

(** An observation ([allow_request] or [state]) made before the cooldown
    counted from [opened] has elapsed. *)
Definition early_observation (opened cooldown : Q) (o : Op) : Prop :=
  match o with
  | AllowRequest now | State now => (now - opened < cooldown)%Q
  | RecordSuccess | RecordFailure _ => False
  end.

(** The shape every breaker has between calls: the failure count is below
    the threshold while CLOSED and has reached it otherwise; the success
    count is 0 outside HALF_OPEN and below the threshold inside it. *)
Definition well_formed (b : CircuitBreaker) : Prop :=
  match _state b with
  | CLOSED =>
      0 <= _failure_count b < _failure_threshold b /\ _success_count b = 0
  | OPEN => _failure_threshold b <= _failure_count b /\ _success_count b = 0
  | HALF_OPEN =>
      _failure_threshold b <= _failure_count b
      /\ 0 <= _success_count b < Z.max 1 (_success_threshold b)
  end.

(** The calls that report an outcome, and those that report a failure. *)
Definition is_record (o : Op) : Prop :=
  match o with
  | RecordSuccess | RecordFailure _ => True
  | AllowRequest _ | State _ => False
  end.

Definition is_failure (o : Op) : Prop :=
  match o with
  | RecordFailure _ => True
  | _ => False
  end.

(** A call that finds the cooldown counted from [opened] still running:
    an observation made before its end, or any report of an outcome. *)
Definition within_cooldown (opened cooldown : Q) (o : Op) : Prop :=
  match o with
  | AllowRequest now | State now => (now - opened < cooldown)%Q
  | RecordSuccess | RecordFailure _ => True
  end.

End Breaker.

(** ** rate_limiter.py *)

Module Limiter.

(** The attributes of a [RateLimiter] instance (the lock apart);
    [_requests] is the dict [user_key -> [timestamps]]. *)
Record RateLimiter : Type := mkRateLimiter {
  _max : Z;
  _window : Q;
  _requests : gmap string (list Q)
}.

(** [RateLimiter.__init__] *)
Definition __init__ (max_requests : Z) (window_seconds : Q) : RateLimiter :=
  {| _max := max_requests; _window := window_seconds; _requests := ∅ |}.

Definition set_requests (d : gmap string (list Q)) (self : RateLimiter) :=
  mkRateLimiter (_max self) (_window self) d.

(** [check]: [now] is the value [time.monotonic()] returned on entry. *)
Definition check (now : Q) (user_key : string) (self : RateLimiter)
    : RateLimiter * bool :=
  let cutoff := (now - _window self)%Q in
  let timestamps := default [] (_requests self !! user_key) in
  let timestamps := List.filter (fun t => Qgt_bool t cutoff) timestamps in
  if _max self <=? Z.of_nat (length timestamps)
  then (set_requests (<[user_key := timestamps]> (_requests self)) self, false)
  else
    let timestamps := timestamps ++ [now] in
    (set_requests (<[user_key := timestamps]> (_requests self)) self, true).

(** A sequence of calls [(now, user_key)], in the order they take the
    lock; the limiter after them and the booleans they returned. *)
Fixpoint run (calls : list (Q * string)) (self : RateLimiter)
    : RateLimiter * list bool :=
  match calls with
  | [] => (self, [])
  | (now, k) :: rest =>
      let (self1, r) := check now k self in
      let (self2, rs) := run rest self1 in
      (self2, r :: rs)
  end.

(** The results of the calls made for one key, in call order. *)
Fixpoint results_for (k : string) (calls : list (Q * string))
    (results : list bool) : list bool :=
  match calls, results with
  | (_, k') :: cs, r :: rs =>
      if String.eqb k' k then r :: results_for k cs rs
      else results_for k cs rs
  | _, _ => []
  end.

(** The run with every call of key [k] removed. *)
Definition without (k : string) (calls : list (Q * string))
    : list (Q * string) :=
  List.filter (fun c => negb (String.eqb (snd c) k)) calls.

(** What [check] does to the list of one key: the list it stores back and
    the boolean it returns, from the list it found. *)
Definition window_step (max_requests : Z) (window_seconds now : Q)
    (found : list Q) : list Q * bool :=
  let pruned :=
    List.filter (fun t => Qgt_bool t (now - window_seconds)%Q) found in
  if max_requests <=? Z.of_nat (length pruned)
  then (pruned, false)
  else (pruned ++ [now], true).

(** The booleans of successive [check]s of one key at the given clock
    readings, from the list stored for the key. *)
Fixpoint window_run (max_requests : Z) (window_seconds : Q)
    (times : list Q) (found : list Q) : list bool :=
  match times with
  | [] => []
  | now :: rest =>
      let (stored, r) := window_step max_requests window_seconds now found in
      r :: window_run max_requests window_seconds rest stored
  end.

(** Two limiters look the same from key [k]: same configuration, same
    stored list for [k]. *)
Definition same_view (k : string) (l l' : RateLimiter) : Prop :=
  _max l = _max l' /\ _window l = _window l'
  /\ _requests l !! k = _requests l' !! k.

(** Every stored list has at most [_max] entries, is in nondecreasing
    order, and holds no reading later than [bound]. *)
Definition bounded_sorted (bound : Q) (l : RateLimiter) : Prop :=
  forall (k : string) (ts : list Q),
    _requests l !! k = Some ts ->
    Z.of_nat (length ts) <= _max l
    /\ StronglySorted Qle ts
    /\ Forall (fun t => (t <= bound)%Q) ts.

(** A limiter that never prunes, for comparison: [hist] holds every call
    it has allowed, oldest first, and a call is allowed when fewer than
    [max_requests] of the allowed calls of its key are later than
    [now - window_seconds]. *)
Definition times_after (cut : Q) (k : string) (hist : list (Q * string))
    : list Q :=
  map fst
    (List.filter (fun c => String.eqb (snd c) k && Qgt_bool (fst c) cut) hist).

Fixpoint unpruned_run (max_requests : Z) (window_seconds : Q)
    (hist : list (Q * string)) (calls : list (Q * string)) : list bool :=
  match calls with
  | [] => []
  | (now, k) :: rest =>
      let r := Z.of_nat (length (times_after (now - window_seconds) k hist))
               <? max_requests in
      r :: unpruned_run max_requests window_seconds
             (if r then hist ++ [(now, k)] else hist) rest
  end.

(** The calls of a run that were allowed, in call order. *)
Fixpoint allowed_calls (calls : list (Q * string)) (results : list bool)
    : list (Q * string) :=
  match calls, results with
  | c :: cs, r :: rs =>
      if r then c :: allowed_calls cs rs else allowed_calls cs rs
  | _, _ => []
  end.

(** What the limiter stores and the full record [hist] of allowed calls
    show the same readings to any call made at [bound] or later. *)
Definition agrees (bound : Q) (l : RateLimiter) (hist : list (Q * string))
    : Prop :=
  forall (k : string) (cut : Q),
    (bound - _window l <= cut)%Q ->
    List.filter (fun t => Qgt_bool t cut) (default [] (_requests l !! k))
    = times_after cut k hist.

(** The calls of key [k] whose reading lies in the window
    [(T - window_seconds, T]]. *)
Definition in_window (window_seconds T : Q) (k : string)
    (calls : list (Q * string)) : list (Q * string) :=
  List.filter
    (fun c => String.eqb (snd c) k
              && Qgt_bool (fst c) (T - window_seconds)
              && Qle_bool (fst c) T)
    calls.

End Limiter.

(** ** config.py and azure_client.py *)

Module Client.

Import Breaker.

(** The fields of [Settings] the access layer reads. *)
Record Settings : Type := mkSettings {
  api_retry_attempts : Z;
  api_retry_delay_seconds : Q;
  api_timeout_seconds : Q;
  rate_limit_max_requests : Z;
  rate_limit_window_seconds : Q;
  circuit_breaker_failure_threshold : Z;
  circuit_breaker_cooldown_seconds : Q
}.

(** The field defaults of [Settings]. *)
Definition default_settings : Settings :=
  {| api_retry_attempts := 3;
     api_retry_delay_seconds := 2%Q;
     api_timeout_seconds := 30%Q;
     rate_limit_max_requests := 30;
     rate_limit_window_seconds := 60%Q;
     circuit_breaker_failure_threshold := 5;
     circuit_breaker_cooldown_seconds := 60%Q |}.

Definition _RETRYABLE_STATUS_CODES : list Z := [429; 502; 503; 504].

(** [status in _RETRYABLE_STATUS_CODES] *)
Definition retryable (status : Z) : bool :=
  existsb (Z.eqb status) _RETRYABLE_STATUS_CODES.

(** What [float(resp.headers.get("Retry-After", 0))] meets.
    - [Absent]: the response has no such header, [get] returns the default
      [0] and [float(0)] is [0.0];
    - [Seconds q]: the header's text is a number, which [float] parses to [q];
    - [Unparsable]: the header's text is not a number (an HTTP-date, say)
      and [float] raises [ValueError].
    The texts [float] reads as [nan] or [inf] have no counterpart in [Q]
    and are left out. *)
Inductive RetryAfter : Type :=
| Absent
| Seconds (q : Q)
| Unparsable.

(** A [requests.Response], as far as the client looks at it. *)
Record Response : Type := mkResponse {
  status_code : Z;
  retry_after_header : RetryAfter;
  text : string
}.

(** What [requests.request] / [requests.get] does on one attempt: it returns
    a response or raises a [requests.RequestException] (connection failure,
    timeout) without one. *)
Inductive Exchange : Type :=
| Reply (resp : Response)
| NoReply.

(** The surroundings of one logical call, indexed by the attempt number:
    what the remote service answers, how long the exchange takes, and the
    value [random.uniform(0, 1)] returns if it is drawn on that attempt. *)
Record Upstream : Type := mkUpstream {
  exchange : Z -> Exchange;
  latency : Z -> Q;
  uniform : Z -> Q
}.

Inductive Exception : Type :=
| ADOUnavailableError
| HTTPError (resp : Response)
| RequestException
| ValueError
| JSONDecodeError
| UnboundLocalError.

Inductive Result (A : Type) : Type :=
| Return (a : A)
| Raise (e : Exception).
Arguments Return {A} a.
Arguments Raise {A} e.

(** What a logical call does, in order. *)
Inductive Event : Type :=
| EAllowRequest (allowed : bool)
| ERequest (attempt : Z)
| ESleep (secs : Q)
| ERecordSuccess
| ERecordFailure.

(** The state a logical call runs in: the breaker singleton it shares, the
    monotonic clock and the events so far (latest last). *)
Record World : Type := mkWorld {
  cb : CircuitBreaker;
  clock : Q;
  trace : list Event
}.

Definition emit (e : Event) (w : World) : World :=
  mkWorld (cb w) (clock w) (trace w ++ [e]).

Definition advance (d : Q) (w : World) : World :=
  mkWorld (cb w) (clock w + d)%Q (trace w).

(** [cb.allow_request()] *)
Definition cb_allow_request (w : World) : bool * World :=
  let (b, ok) := allow_request (clock w) (cb w) in
  (ok, emit (EAllowRequest ok) (mkWorld b (clock w) (trace w))).

(** [cb.record_success()] *)
Definition cb_record_success (w : World) : World :=
  emit ERecordSuccess (mkWorld (record_success (cb w)) (clock w) (trace w)).

(** [cb.record_failure()] *)
Definition cb_record_failure (w : World) : World :=
  emit ERecordFailure
    (mkWorld (record_failure (clock w) (cb w)) (clock w) (trace w)).

(** [time.sleep(secs)]: raises [ValueError] on a negative length. *)
Definition sleep (secs : Q) (w : World) : Result unit * World :=
  if Qlt_bool secs 0 then (Raise ValueError, w)
  else (Return tt, advance secs (emit (ESleep secs) w)).

(** [requests.Response.raise_for_status] (of the requests library): raises
    [HTTPError], which carries the response, for the statuses 400 to 599. *)
Definition raise_for_status (resp : Response) : Result unit :=
  if (400 <=? status_code resp) && (status_code resp <? 600)
  then Raise (HTTPError resp) else Return tt.

(** [float(resp.headers.get("Retry-After", 0))] *)
Definition float_retry_after (resp : Response) : Result Q :=
  match retry_after_header resp with
  | Absent => Return 0%Q
  | Seconds q => Return q
  | Unparsable => Raise ValueError
  end.

(** The attributes of an [AzureDevOpsClient]. *)
Record AzureDevOpsClient : Type := mkClient {
  _org : string;
  _retry_attempts : Z;
  _retry_delay : Q;
  _timeout : Q
}.

(** The value of [retry_after] handed to [time.sleep]: lines
    [retry_after = float(...)] and [if not retry_after: retry_after = ...]. *)
Definition retry_after (self : AzureDevOpsClient) (attempt : Z)
    (resp : Response) (u : Q) : Result Q :=
  match float_retry_after resp with
  | Raise e => Raise e
  | Return ra =>
      if Qeq_bool ra 0
      then Return (_retry_delay self * inject_Z (2 ^ (attempt - 1)) + u)%Q
      else Return ra
  end.

(** [_get_circuit_breaker]: the lazy singleton; [g] is the module global
    [_circuit_breaker], [s] what [get_settings()] returns. The result is the
    breaker and the new value of the global. *)
Definition _get_circuit_breaker (s : Settings) (g : option CircuitBreaker)
    : CircuitBreaker * option CircuitBreaker :=
  match g with
  | None =>
      let b := __init__ (circuit_breaker_failure_threshold s)
                 (circuit_breaker_cooldown_seconds s)
                 default_success_threshold in
      (b, Some b)
  | Some b => (b, Some b)
  end.

(** [get_circuit_breaker_state] *)
Definition get_circuit_breaker_state (now : Q) (g : option CircuitBreaker)
    : string * option CircuitBreaker :=
  match g with
  | None => ("closed"%string, None)
  | Some b => let (b', st) := state now b in (value st, Some b')
  end.

(** [get_devops_client], on first use. *)
Definition get_devops_client (org : string) (s : Settings)
    : AzureDevOpsClient :=
  {| _org := org;
     _retry_attempts := api_retry_attempts s;
     _retry_delay := api_retry_delay_seconds s;
     _timeout := api_timeout_seconds s |}.

Section Execute.

(** The decoded form of a response: [A] is [dict] with [decode] being
    [resp.json()] in [_request_with_retry], and [str] with [resp.text] in
    [get_text]. *)
Context {A : Type}.
Variable decode : Response -> Result A.
Variable self : AzureDevOpsClient.
Variable up : Upstream.

(** [resp.raise_for_status(); return <decoded resp>] *)
Definition finish (resp : Response) (w : World) : Result A * World :=
  match raise_for_status resp with
  | Raise e => (Raise e, w)
  | Return _ => (decode resp, w)
  end.

(** The [for attempt in range(1, self._retry_attempts + 1)] loop and the
    three lines after it. [fuel] is the number of values the range still
    yields, [attempt] the next of them, [resp] the local variable of that
    name ([None] while it is unbound). The loops of [_request_with_retry]
    and [get_text] are the same text up to the log message and the decoding
    of the response. *)
Fixpoint attempt_loop (fuel : nat) (attempt : Z) (resp : option Response)
    (w : World) : Result A * World :=
  match fuel with
  | O =>
      let w := cb_record_failure w in
      match resp with
      | None => (Raise UnboundLocalError, w)
      | Some r => finish r w
      end
  | S fuel' =>
      let w := advance (latency up attempt) (emit (ERequest attempt) w) in
      match exchange up attempt with
      | NoReply => (Raise RequestException, w)
      | Reply r =>
          if retryable (status_code r) && (attempt <? _retry_attempts self)
          then
            match retry_after self attempt r (uniform up attempt) with
            | Raise e => (Raise e, w)
            | Return d =>
                match sleep d w with
                | (Raise e, w) => (Raise e, w)
                | (Return _, w) => attempt_loop fuel' (attempt + 1) (Some r) w
                end
            end
          else
            let w := if 500 <=? status_code r
                     then cb_record_failure w
                     else cb_record_success w in
            finish r w
      end
  end.

(** The body shared by [_request_with_retry] and [get_text]: the breaker
    check, then the loop over [range(1, self._retry_attempts + 1)]. The
    call starts at clock reading [now] with the breaker [b]. *)
Definition execute (b : CircuitBreaker) (now : Q) : Result A * World :=
  let (ok, w) := cb_allow_request (mkWorld b now []) in
  if negb ok then (Raise ADOUnavailableError, w)
  else attempt_loop (Z.to_nat (_retry_attempts self)) 1 None w.

End Execute.

Section Decoders.

(** [JSON] stands for the values [resp.json()] returns and [json_loads] for
    the parser behind it, which fails on a body that is not JSON. *)
Context {JSON : Type}.
Variable json_loads : string -> option JSON.

(** [resp.json()] *)
Definition json (resp : Response) : Result JSON :=
  match json_loads (text resp) with
  | Some j => Return j
  | None => Raise JSONDecodeError
  end.

(** [_request_with_retry]: [s] is what [get_settings()] returns and [g] the
    module global [_circuit_breaker] at the call. *)
Definition _request_with_retry (self : AzureDevOpsClient) (s : Settings)
    (up : Upstream) (g : option CircuitBreaker) (now : Q)
    : Result JSON * World :=
  execute json self up (fst (_get_circuit_breaker s g)) now.

End Decoders.

(** [get_text] *)
Definition get_text (self : AzureDevOpsClient) (s : Settings)
    (up : Upstream) (g : option CircuitBreaker) (now : Q)
    : Result string * World :=
  execute (fun resp => Return (text resp)) self up
    (fst (_get_circuit_breaker s g)) now.

(** Counting the events of a call. *)
Definition is_request (e : Event) : bool :=
  match e with ERequest _ => true | _ => false end.
Definition is_sleep (e : Event) : bool :=
  match e with ESleep _ => true | _ => false end.
Definition is_allow (e : Event) : bool :=
  match e with EAllowRequest _ => true | _ => false end.
Definition is_outcome (e : Event) : bool :=
  match e with ERecordSuccess | ERecordFailure => true | _ => false end.

Definition count (p : Event -> bool) (tr : list Event) : Z :=
  Z.of_nat (length (List.filter p tr)).


(** Logical calls made one after the other on the shared breaker, each with
    its own surroundings and starting clock reading: the breaker after them
    and what each returned or raised. *)
Fixpoint run_calls {A : Type} (decode : Response -> Result A)
    (self : AzureDevOpsClient) (calls : list (Upstream * Q))
    (b : CircuitBreaker) : CircuitBreaker * list (Result A) :=
  match calls with
  | [] => (b, [])
  | (up, now) :: rest =>
      let (res, w) := execute decode self up b now in
      let (b', rs) := run_calls decode self rest (cb w) in
      (b', res :: rs)
  end.

(** A call that failed on a server error: it raised [HTTPError] for a
    response of status 500 or more. *)
Definition server_error {A : Type} (res : Result A) : Prop :=
  exists r : Response, res = Raise (HTTPError r) /\ 500 <= status_code r.


(** The seconds a call spent in [time.sleep]. *)
Fixpoint total_sleep (tr : list Event) : Q :=
  match tr with
  | [] => 0
  | ESleep secs :: rest => secs + total_sleep rest
  | _ :: rest => total_sleep rest
  end.

(** The sum of [base * 2 ** (a - 1) + 1] over [n] attempts from [attempt]
    on: the longest the backoff formula can make them sleep. *)
Fixpoint backoff_sum (base : Q) (attempt : Z) (n : nat) : Q :=
  match n with
  | O => 0
  | S n' =>
      (base * inject_Z (2 ^ (attempt - 1)) + 1)
      + backoff_sum base (attempt + 1) n'
  end.

End Client.

(** ** Python strings *)

(** A Python [str] is a sequence of Unicode code points. *)
Module Str.

Definition str : Type := list N.

(** A literal of the source, which is ASCII. *)
Definition lit (s : string) : str :=
  map Ascii.N_of_ascii (String.list_ascii_of_string s).

(** Equality of strings. *)
Fixpoint eqb (s t : str) : bool :=
  match s, t with
  | [], [] => true
  | c :: s', d :: t' => (c =? d)%N && eqb s' t'
  | _, _ => false
  end.

(** The code points CPython counts as whitespace, in [str.strip],
    [str.isspace] and the [\s] and [\S] of [re] on [str] patterns:
    U+0009 to U+000D, U+001C to U+0020, U+0085, U+00A0, U+1680, U+2000 to
    U+200A, U+2028, U+2029, U+202F, U+205F and U+3000. *)
Definition isspace (c : N) : bool :=
  ((9 <=? c) && (c <=? 13) || (28 <=? c) && (c <=? 32)
   || (c =? 133) || (c =? 160) || (c =? 5760)
   || (8192 <=? c) && (c <=? 8202)
   || (c =? 8232) || (c =? 8233) || (c =? 8239) || (c =? 8287)
   || (c =? 12288))%N.

(** [s.lstrip()] *)
Fixpoint lstrip (s : str) : str :=
  match s with
  | [] => []
  | c :: s' => if isspace c then lstrip s' else s
  end.

(** [s.strip()] *)
Definition strip (s : str) : str := rev (lstrip (rev (lstrip s))).

(** [s.split(sep)] for a separator of one character. *)
Fixpoint split (sep : N) (s : str) : list str :=
  match s with
  | [] => [[]]
  | c :: s' =>
      if (c =? sep)%N then [] :: split sep s'
      else match split sep s' with
           | p :: ps => (c :: p) :: ps
           | [] => [[c]]
           end
  end.

(** [sep.join(parts)] *)
Fixpoint join (sep : str) (parts : list str) : str :=
  match parts with
  | [] => []
  | [p] => p
  | p :: rest => p ++ sep ++ join sep rest
  end.

(** [s.startswith(p)] *)
Fixpoint startswith (p s : str) : bool :=
  match p, s with
  | [], _ => true
  | c :: p', d :: s' => (c =? d)%N && startswith p' s'
  | _ :: _, [] => false
  end.

(** Neither end of the string is whitespace. *)
Definition starts_clean (s : str) : bool :=
  match s with
  | [] => true
  | c :: _ => negb (isspace c)
  end.

Definition stripped (s : str) : bool :=
  starts_clean s && starts_clean (rev s).

Definition comma : N := 44.

End Str.

(** ** config.py: the project settings *)

Module Config.
Import Str.

(** The project fields of [Settings]. *)
Record ProjectSettings : Type := mkProjectSettings {
  azure_devops_projects : str;
  azure_devops_project : option str
}.

(** Truth value of a [str | None]. *)
Definition truthy (o : option str) : bool :=
  match o with
  | Some (_ :: _) => true
  | _ => false
  end.

(** Truth value of a [str]. *)
Definition nonempty (s : str) : bool :=
  match s with
  | [] => false
  | _ :: _ => true
  end.

(** The [allowed_projects] property. *)
Definition allowed_projects (self : ProjectSettings) : list str :=
  let projects :=
    List.filter nonempty
      (map strip (split comma (azure_devops_projects self))) in
  if negb (match projects with [] => false | _ => true end)
     && truthy (azure_devops_project self)
  then match azure_devops_project self with
       | Some p => [p]
       | None => projects
       end
  else projects.

(** The [default_project] property. *)
Definition default_project (self : ProjectSettings) : option str :=
  if truthy (azure_devops_project self) then azure_devops_project self
  else match allowed_projects self with
       | p :: _ => Some p
       | [] => None
       end.

End Config.

(** ** function_app.py: helpers of the tool handlers *)

Module App.
Import Str Config.

(** What [args.get("project")] can be: nothing that counts as true (the
    key is missing, or its value is [None], [""], [0], [False], an empty
    list or dict), a string, or a value that counts as true and is no
    string (a number, [True], a non-empty list or dict). *)
Inductive Arg : Type :=
| Falsy
| Text (s : str)
| Other.

(** The [ValueError]s of [_resolve_project], by their message. *)
Inductive ProjectError : Type :=
| NoProjectSpecified
| NoAllowedProjects
| NotInAllowedList.

(** [_resolve_project]: [arg] is [args.get("project")], [settings] what
    [get_settings()] returns. *)
Definition _resolve_project (arg : Arg) (settings : ProjectSettings)
    : str + ProjectError :=
  let project :=
    match arg with
    | Text (c :: s) => Text (c :: s)
    | Other => Other
    | _ => match default_project settings with
           | Some (c :: s) => Text (c :: s)
           | _ => Falsy
           end
    end in
  match project with
  | Falsy | Text [] => inr NoProjectSpecified
  | _ =>
      let allowed := allowed_projects settings in
      match allowed with
      | [] => inr NoAllowedProjects
      | _ =>
          match project with
          | Text p =>
              if existsb (Str.eqb p) allowed then inl p
              else inr NotInAllowedList
          | _ => inr NotInAllowedList
          end
      end
  end.

(** [after p s] is what follows [p] in [s] when [s] starts with [p]. *)
Fixpoint after (p s : str) : option str :=
  match p, s with
  | [], _ => Some s
  | c :: p', d :: s' => if (c =? d)%N then after p' s' else None
  | _ :: _, [] => None
  end.

Definition nonspace_first (s : str) : bool :=
  match s with
  | c :: _ => negb (isspace c)
  | [] => false
  end.

(** The pattern [https?://\S+] matches at the start of [s]: [s] starts
    with "https://" or "http://" and a character that is not whitespace
    follows. *)
Definition url_at (s : str) : bool :=
  match after (lit "https://") s with
  | Some r => nonspace_first r
  | None => false
  end
  || match after (lit "http://") s with
     | Some r => nonspace_first r
     | None => false
     end.

Definition URL_REDACTED : str := lit "[URL redacted]".

(** [re.sub(r"https?://\S+", "[URL redacted]", s)], scanning [s] from the
    left. Outside a match ([in_match = false]) a position where the pattern
    matches starts a match and puts the replacement out, any other
    character is copied. The match is the longest run of characters that
    are not whitespace, since [\S+] is greedy and ends the pattern and the
    characters of "http://" and "https://" are not whitespace themselves:
    inside a match ([in_match = true]) such characters are dropped, and the
    first whitespace character ends the match and is copied (it cannot
    start another). *)
Fixpoint sub_urls (in_match : bool) (s : str) : str :=
  match s with
  | [] => []
  | c :: s' =>
      if in_match then
        if isspace c then c :: sub_urls false s' else sub_urls true s'
      else if url_at s then URL_REDACTED ++ sub_urls true s'
      else c :: sub_urls false s'
  end.

(** [_sanitise_error_message] *)
Definition _sanitise_error_message (message : str) : str :=
  sub_urls false message.


(** The dict [_extract_user_identity] returns, for claims that are strings
    or absent. *)
Record User : Type := mkUser {
  principal_name : option string;
  principal_id : option string;
  client_ip : option string
}.

(** [x or ...] on a [str | None]: the value when it counts as true. *)
Definition if_true (o : option string) : option string :=
  match o with
  | Some (String a s) => Some (String a s)
  | _ => None
  end.

(** [user.get("principal_id") or user.get("principal_name") or "anonymous"] *)
Definition user_key (user : User) : string :=
  match if_true (principal_id user) with
  | Some s => s
  | None =>
      match if_true (principal_name user) with
      | Some s => s
      | None => "anonymous"
      end
  end.

(** [_get_rate_limiter]: the lazy singleton; [g] is the module global
    [_rate_limiter], [s] what [get_settings()] returns. *)
Definition _get_rate_limiter (s : Client.Settings)
    (g : option Limiter.RateLimiter)
    : Limiter.RateLimiter * option Limiter.RateLimiter :=
  match g with
  | None =>
      let rl := Limiter.__init__ (Client.rate_limit_max_requests s)
                  (Client.rate_limit_window_seconds s) in
      (rl, Some rl)
  | Some rl => (rl, Some rl)
  end.

(** The text [json.dumps] gives for the dict of [_check_rate_limit]. *)
Definition RATE_LIMIT_ERROR : string :=
  let q := String (Ascii.ascii_of_nat 34) EmptyString in
  ("{" ++ q ++ "error" ++ q ++ ": true, " ++ q ++ "message" ++ q ++ ": "
   ++ q ++ "Rate limit exceeded. Try again shortly." ++ q ++ "}")%string.

(** [_check_rate_limit]: the result and the new value of the global. *)
Definition _check_rate_limit (user : User) (s : Client.Settings) (now : Q)
    (g : option Limiter.RateLimiter)
    : option string * option Limiter.RateLimiter :=
  let rl := fst (_get_rate_limiter s g) in
  let (rl', ok) := Limiter.check now (user_key user) rl in
  (if ok then None else Some RATE_LIMIT_ERROR, Some rl').

(** Tool calls one after the other, each by a user at a clock reading:
    what [_check_rate_limit] returned to each. *)
Fixpoint run_checks (s : Client.Settings) (calls : list (User * Q))
    (g : option Limiter.RateLimiter) : list (option string) :=
  match calls with
  | [] => []
  | (user, now) :: rest =>
      let (r, g') := _check_rate_limit user s now g in
      r :: run_checks s rest g'
  end.


(** A value of the dict [_sanitise_args_for_log] returns: a value of
    [args] kept as it is, the list of parameter names, or the text
    "(invalid)". *)
Inductive LogValue (V : Type) : Type :=
| Kept (v : V)
| ParameterKeys (ks : list string)
| InvalidParameters.
Arguments Kept {V} v.
Arguments ParameterKeys {V} ks.
Arguments InvalidParameters {V}.

Section SanitiseArgs.

(** [V] stands for the values of the tool arguments, and [parameter_keys v]
    for [list(json.loads(v).keys())], with [None] where that expression
    raises [JSONDecodeError], [TypeError] or [AttributeError] ([v] is no
    text, no JSON, or no JSON object). *)
Context {V : Type}.
Variable parameter_keys : V -> option (list string).

(** [_sanitise_args_for_log] *)
Definition _sanitise_args_for_log (args : gmap string V)
    : gmap string (LogValue V) :=
  let safe : gmap string (LogValue V) :=
    Kept <$> filter (fun kv => kv.1 <> "parameters"%string) args in
  match args !! "parameters"%string with
  | Some v =>
      <["parameter_keys"%string :=
          match parameter_keys v with
          | Some ks => ParameterKeys ks
          | None => InvalidParameters
          end]> safe
  | None => safe
  end.

End SanitiseArgs.


End App.

(** * Properties *)

(** ** Float comparisons *)

Lemma Qle_bool_true (x y : Q) : (x <= y)%Q -> Qle_bool x y = true.
Proof. intros H. now apply Qle_bool_iff. Qed.

Lemma Qle_bool_false (x y : Q) : (y < x)%Q -> Qle_bool x y = false.
Proof.
  intros H. destruct (Qle_bool x y) eqn:E; [|reflexivity].
  apply Qle_bool_iff in E. lra.
Qed.

Lemma Qgt_bool_iff (a b : Q) : Qgt_bool a b = true <-> (b < a)%Q.
Proof.
  unfold Qgt_bool. split; intros H.
  - destruct (Qle_bool a b) eqn:E; [discriminate|].
    destruct (Qlt_le_dec b a) as [L|L]; [exact L|].
    apply Qle_bool_iff in L. congruence.
  - now rewrite Qle_bool_false.
Qed.

(** ** The circuit breaker *)

Module BreakerFacts.
Import Breaker.

(** While the count stays under the threshold, failures only count. *)
Lemma record_failures_below (ts : list Q) :
  forall b : CircuitBreaker,
    _state b = CLOSED ->
    _failure_count b + Z.of_nat (length ts) < _failure_threshold b ->
    record_failures ts b
    = set_failure_count (_failure_count b + Z.of_nat (length ts)) b.
Proof.
  induction ts as [|t ts IH]; intros [F cd sth st fc sc oa] Hst Hlt;
    simpl in Hst; subst st.
  - cbn. unfold set_failure_count; cbn. f_equal. lia.
  - cbn [length] in Hlt. cbn in Hlt.
    unfold record_failures in *. cbn [fold_left].
    unfold record_failure at 2. cbn.
    destruct (F <=? fc + 1) eqn:E; [apply Z.leb_le in E; lia|].
    rewrite IH; cbn; [|reflexivity|lia].
    unfold set_failure_count; cbn. f_equal. lia.
Qed.

Lemma record_failures_app (ts us : list Q) (b : CircuitBreaker) :
  record_failures (ts ++ us) b = record_failures us (record_failures ts b).
Proof. unfold record_failures. apply fold_left_app. Qed.

(** An open breaker refuses until the cooldown has elapsed. *)
Lemma allow_request_open_early (now : Q) (b : CircuitBreaker) :
  _state b = OPEN -> (now - _opened_at b < _cooldown_seconds b)%Q ->
  allow_request now b = (b, false) /\ state now b = (b, OPEN).
Proof.
  intros Hst Hlt. unfold allow_request, state, _maybe_transition_to_half_open.
  rewrite Hst, Qle_bool_false by exact Hlt. rewrite Hst. auto.
Qed.

(** Once the cooldown has elapsed, the next observation half-opens it. *)
Lemma allow_request_open_late (now : Q) (b : CircuitBreaker) :
  _state b = OPEN -> (_cooldown_seconds b <= now - _opened_at b)%Q ->
  allow_request now b = (set_success_count 0 (set_state HALF_OPEN b), true)
  /\ state now b = (set_success_count 0 (set_state HALF_OPEN b), HALF_OPEN).
Proof.
  intros Hst Hle. unfold allow_request, state, _maybe_transition_to_half_open.
  rewrite Hst, Qle_bool_true by exact Hle. cbn. auto.
Qed.



(** *** Counters across transitions *)

(** With threshold 3, the third failure leaves CLOSED with
    [_failure_count = 3]: [record_failure] does not reset the count when it
    opens the breaker. *)
Lemma counters_reset_on_leave_fails :
  let b := run [RecordFailure 0; RecordFailure 1] (__init__ 3 5 1) in
  _state b = CLOSED
  /\ _state (step b (RecordFailure 2)) = OPEN
  /\ _failure_count (step b (RecordFailure 2)) = 3
  /\ ~ counters_reset_on_leave b (RecordFailure 2).
Proof.
  cbn. repeat split. intros [H _]. cbn in H.
  specialize (H eq_refl). discriminate H. discriminate.
Qed.

Lemma maybe_transition_cases (now : Q) (b : CircuitBreaker) :
  _maybe_transition_to_half_open now b = b
  \/ (_state b = OPEN
      /\ _maybe_transition_to_half_open now b
         = set_success_count 0 (set_state HALF_OPEN b)).
Proof.
  unfold _maybe_transition_to_half_open.
  destruct (_state b) eqn:E; auto.
  destruct (Qle_bool _ _); auto.
Qed.

Lemma fst_allow_request (now : Q) (b : CircuitBreaker) :
  fst (allow_request now b) = _maybe_transition_to_half_open now b.
Proof.
  unfold allow_request.
  destruct (_state (_maybe_transition_to_half_open now b)); reflexivity.
Qed.

(** C3, as the code has it: for every breaker [b] reached by any sequence
    of calls and every further call, (1) a call that leaves HALF_OPEN
    leaves [_success_count = 0]; (2) a call that enters HALF_OPEN leaves
    [_success_count = 0]; (3) a call that enters CLOSED leaves both counters
    at 0; (4) a call that leaves CLOSED opens the breaker and keeps the
    incremented [_failure_count], which has reached the threshold: the
    failure count is reset on the way back into CLOSED, not on the way
    out. *)
Theorem counters_across_transitions
    (F : Z) (cd : Q) (sth : Z) (ops : list Op) (o : Op) :
  let b := run ops (__init__ F cd sth) in
  let b' := step b o in
  (_state b = HALF_OPEN -> _state b' <> HALF_OPEN -> _success_count b' = 0)
  /\ (_state b <> HALF_OPEN -> _state b' = HALF_OPEN -> _success_count b' = 0)
  /\ (_state b <> CLOSED -> _state b' = CLOSED ->
        _failure_count b' = 0 /\ _success_count b' = 0)
  /\ (_state b = CLOSED -> _state b' <> CLOSED ->
        _state b' = OPEN
        /\ _failure_count b' = _failure_count b + 1
        /\ _failure_threshold b <= _failure_count b').
Proof.
  intros b b'. subst b'. generalize b as c. clear b. intros c.
  destruct o as [now|now| |now]; cbn [step].
  - rewrite fst_allow_request.
    destruct (maybe_transition_cases now c) as [->|[Hs ->]]; cbn;
      repeat split; intros; try congruence.
  - unfold state; cbn [fst].
    destruct (maybe_transition_cases now c) as [->|[Hs ->]]; cbn;
      repeat split; intros; try congruence.
  - destruct c as [F' cd' sth' st fc sc oa]. unfold record_success; cbn.
    destruct st; cbn; try destruct (sth' <=? sc + 1); cbn;
      repeat split; intros; try congruence.
  - destruct c as [F' cd' sth' st fc sc oa]. unfold record_failure; cbn.
    destruct st; cbn; try destruct (F' <=? fc + 1) eqn:E; cbn;
      repeat split; intros; try congruence.
    apply Z.leb_le in E. exact E.
Qed.

(** *** record_success *)

(** Calls keep the configuration, and the success count never goes
    negative. *)
Lemma step_preserves_config (b : CircuitBreaker) (o : Op) :
  _failure_threshold (step b o) = _failure_threshold b
  /\ _cooldown_seconds (step b o) = _cooldown_seconds b
  /\ _success_threshold (step b o) = _success_threshold b
  /\ (0 <= _success_count b -> 0 <= _success_count (step b o)).
Proof.
  destruct o as [now|now| |now]; cbn [step].
  - rewrite fst_allow_request.
    destruct (maybe_transition_cases now b) as [->|[_ ->]]; cbn; intuition lia.
  - unfold state; cbn [fst].
    destruct (maybe_transition_cases now b) as [->|[_ ->]]; cbn; intuition lia.
  - destruct b as [F cd sth st fc sc oa]. unfold record_success; cbn.
    destruct st; cbn; try destruct (sth <=? sc + 1); cbn; intuition lia.
  - destruct b as [F cd sth st fc sc oa]. unfold record_failure; cbn.
    destruct st; cbn; try destruct (F <=? fc + 1); cbn; intuition lia.
Qed.

Lemma run_preserves_config (ops : list Op) :
  forall b : CircuitBreaker,
    0 <= _success_count b ->
    _success_threshold (run ops b) = _success_threshold b
    /\ 0 <= _success_count (run ops b).
Proof.
  induction ops as [|o ops IH]; intros b Hb; [cbn; auto|].
  unfold run in *. cbn [fold_left].
  destruct (step_preserves_config b o) as (_ & _ & Hsth & Hsc).
  destruct (IH (step b o) (Hsc Hb)) as [H1 H2].
  split; [congruence|exact H2].
Qed.

(** C8: [record_success] on a CLOSED breaker only sets [_failure_count] to
    0; on a HALF_OPEN one it increments [_success_count] and, when the new
    count has reached [_success_threshold], moves to CLOSED with both
    counters at 0 (and otherwise only keeps the new count); on an OPEN one
    it changes nothing. The singleton [_get_circuit_breaker] creates has
    [_success_threshold = 1], and whenever it is HALF_OPEN, after any calls,
    one [record_success] closes it. *)
Theorem record_success_behaviour :
  (forall b : CircuitBreaker,
     (_state b = CLOSED -> record_success b = set_failure_count 0 b)
     /\ (_state b = HALF_OPEN ->
           _success_threshold b <= _success_count b + 1 ->
           record_success b
           = mkCircuitBreaker (_failure_threshold b) (_cooldown_seconds b)
               (_success_threshold b) CLOSED 0 0 (_opened_at b))
     /\ (_state b = HALF_OPEN ->
           _success_count b + 1 < _success_threshold b ->
           record_success b = set_success_count (_success_count b + 1) b)
     /\ (_state b = OPEN -> record_success b = b))
  /\ (forall (s : Client.Settings) (ops : list Op),
        let b0 := fst (Client._get_circuit_breaker s None) in
        let b := run ops b0 in
        _success_threshold b0 = 1
        /\ (_state b = HALF_OPEN ->
              _state (record_success b) = CLOSED
              /\ _failure_count (record_success b) = 0
              /\ _success_count (record_success b) = 0)).
Proof.
  split.
  - intros [F cd sth st fc sc oa]; cbn.
    repeat split; intros Hst; subst st; unfold record_success; cbn; auto.
    + intros Hle. apply Z.leb_le in Hle. rewrite Hle. reflexivity.
    + intros Hlt. apply Z.leb_gt in Hlt. rewrite Hlt. reflexivity.
  - intros s ops b0 b. split; [reflexivity|].
    destruct (run_preserves_config ops b0) as [Hsth Hsc]; [cbn; lia|].
    fold b in Hsth, Hsc. change (_success_threshold b0) with 1 in Hsth.
    destruct b as [F cd sth st fc sc oa]; cbn in *. intros ->.
    unfold record_success; cbn. subst sth.
    destruct (1 <=? sc + 1) eqn:E; [cbn; auto|apply Z.leb_gt in E; lia].
Qed.

(** *** States between calls *)

Lemma step_well_formed (b : CircuitBreaker) (o : Op) :
  1 <= _failure_threshold b -> well_formed b -> well_formed (step b o).
Proof.
  destruct b as [F cd sth st fc sc oa]. unfold well_formed.
  cbn [_failure_threshold]. intros HF.
  destruct o as [now|now| |now]; cbn [step].
  - rewrite fst_allow_request. unfold _maybe_transition_to_half_open.
    cbn -[Z.max]. destruct st; cbn -[Z.max]; try tauto.
    destruct (Qle_bool _ _); cbn -[Z.max]; lia.
  - unfold state, _maybe_transition_to_half_open.
    cbn -[Z.max]. destruct st; cbn -[Z.max]; try tauto.
    destruct (Qle_bool _ _); cbn -[Z.max]; lia.
  - unfold record_success. cbn -[Z.max]. destruct st; cbn -[Z.max]; try lia.
    destruct (sth <=? sc + 1) eqn:E; cbn -[Z.max];
      [apply Z.leb_le in E|apply Z.leb_gt in E]; lia.
  - unfold record_failure. cbn -[Z.max]. destruct st; cbn -[Z.max]; try lia.
    destruct (F <=? fc + 1) eqn:E; cbn -[Z.max];
      [apply Z.leb_le in E|apply Z.leb_gt in E]; lia.
Qed.

(** With a threshold of at least 1, whatever calls are made on a new
    breaker, in whatever order and at whatever clock readings: while it is
    CLOSED it holds fewer counted failures than the threshold, and its
    success count is 0 unless it is HALF_OPEN, where it stays below the
    success threshold. *)
Theorem breaker_always_well_formed (F : Z) (cd : Q) (sth : Z)
    (ops : list Op) :
  1 <= F ->
  well_formed (run ops (__init__ F cd sth)).
Proof.
  intros HF.
  assert (H0 : well_formed (__init__ F cd sth)) by (cbn; lia).
  assert (H1 : 1 <= _failure_threshold (__init__ F cd sth)) by exact HF.
  revert H0 H1. generalize (__init__ F cd sth) as b.
  induction ops as [|o ops IH]; intros b Hb Hthr; [exact Hb|].
  apply (IH (step b o)); [now apply step_well_formed|].
  destruct (step_preserves_config b o) as (-> & _). exact Hthr.
Qed.

Lemma breaker_always_well_formed_witness :
  1 <= 2
  /\ well_formed
       (run [RecordFailure 0; RecordSuccess; RecordFailure 1; RecordFailure 2;
             AllowRequest 70; RecordSuccess; RecordFailure 71]
          (__init__ 2 60 1)).
Proof.
  assert (H : 1 <= 2) by lia.
  split; [exact H|]. exact (breaker_always_well_formed 2 60 1 _ H).
Defined.

(** *** Consecutive failures *)

Lemma run_app (ops ops' : list Op) (b : CircuitBreaker) :
  run (ops ++ ops') b = run ops' (run ops b).
Proof. unfold run. apply fold_left_app. Qed.

(** An open breaker is deaf to outcomes, and to observations made before
    the cooldown has elapsed. *)
Lemma open_step_within_cooldown (b : CircuitBreaker) (o : Op) :
  _state b = OPEN ->
  within_cooldown (_opened_at b) (_cooldown_seconds b) o ->
  step b o = b.
Proof.
  intros Hst Ho. destruct o as [now|now| |now]; cbn in Ho; cbn [step].
  - now destruct (allow_request_open_early now b Hst Ho) as [-> _].
  - now destruct (allow_request_open_early now b Hst Ho) as [_ ->].
  - unfold record_success. now rewrite Hst.
  - unfold record_failure. now rewrite Hst.
Qed.

(** While the cooldown runs, nothing moves an open breaker: the outcomes
    of calls still in flight are ignored, so late failures do not restart
    the cooldown, and every [allow_request] before its end is refused. *)
Theorem open_breaker_frozen (b : CircuitBreaker) (ops : list Op) :
  _state b = OPEN ->
  Forall (within_cooldown (_opened_at b) (_cooldown_seconds b)) ops ->
  run ops b = b
  /\ forall now : Q,
       (now - _opened_at b < _cooldown_seconds b)%Q ->
       allow_request now (run ops b) = (b, false).
Proof.
  intros Hst Hall.
  assert (Hrun : run ops b = b).
  { induction Hall as [|o ops Ho _ IH]; [reflexivity|].
    unfold run in *. cbn [fold_left].
    now rewrite (open_step_within_cooldown b o Hst Ho). }
  split; [exact Hrun|]. intros now Hnow. rewrite Hrun.
  now apply allow_request_open_early.
Qed.

Lemma open_breaker_frozen_witness :
  let b := record_failure 10 (__init__ 1 60 1) in
  _state b = OPEN
  /\ Forall (within_cooldown (_opened_at b) (_cooldown_seconds b))
       [RecordFailure 20; AllowRequest 30; RecordSuccess; State 69]
  /\ run [RecordFailure 20; AllowRequest 30; RecordSuccess; State 69] b = b
  /\ allow_request 69 b = (b, false).
Proof.
  intros b.
  assert (Hst : _state b = OPEN) by reflexivity.
  assert (Hall : Forall (within_cooldown (_opened_at b) (_cooldown_seconds b))
                   [RecordFailure 20; AllowRequest 30; RecordSuccess; State 69]).
  { repeat constructor. }
  destruct (open_breaker_frozen b _ Hst Hall) as [Hrun Hno].
  split; [exact Hst|]. split; [exact Hall|]. split; [exact Hrun|].
  rewrite <- Hrun at 1. apply Hno. reflexivity.
Defined.


(** Reports of outcomes never half-open a breaker. *)
Lemma record_step_cases (b : CircuitBreaker) (o : Op) :
  is_record o -> _state b = CLOSED -> 0 <= _failure_count b ->
  (_state (step b o) = CLOSED /\ 0 <= _failure_count (step b o)
   /\ _failure_threshold (step b o) = _failure_threshold b)
  \/ (_state (step b o) = OPEN).
Proof.
  destruct b as [F cd sth st fc sc oa]. cbn. intros Ho -> Hfc.
  destruct o as [now|now| |now]; cbn in Ho; try contradiction; cbn.
  - left. unfold record_success; cbn. repeat split; lia.
  - unfold record_failure; cbn. destruct (F <=? fc + 1); cbn; [auto|].
    left. repeat split; lia.
Qed.

Lemma record_run_open (ops : list Op) (b : CircuitBreaker) :
  Forall is_record ops -> _state b = OPEN -> run ops b = b.
Proof.
  intros Hall Hst. apply open_breaker_frozen; [exact Hst|].
  revert Hall. apply List.Forall_impl.
  intros [now|now| |now] Ho; cbn in *; tauto.
Qed.

Lemma record_run_open_state (ops : list Op) (b : CircuitBreaker) :
  Forall is_record ops -> _state b = OPEN -> _state (run ops b) = OPEN.
Proof. intros Hall Hst. now rewrite record_run_open. Qed.

Lemma failures_are_records (fs : list Op) :
  Forall is_failure fs -> Forall is_record fs.
Proof. apply List.Forall_impl. intros [| | |]; cbn; tauto. Qed.

Lemma record_run_cases (ops : list Op) :
  forall b : CircuitBreaker,
    Forall is_record ops -> _state b = CLOSED -> 0 <= _failure_count b ->
    (_state (run ops b) = CLOSED /\ 0 <= _failure_count (run ops b)
     /\ _failure_threshold (run ops b) = _failure_threshold b)
    \/ _state (run ops b) = OPEN.
Proof.
  induction ops as [|o ops IH]; intros b Hall Hst Hfc; [left; cbn; auto|].
  inversion Hall as [|? ? Ho Hall']; subst.
  change (run (o :: ops) b) with (run ops (step b o)).
  destruct (record_step_cases b o Ho Hst Hfc) as [(Hs & Hf & Ht)|Hs].
  - destruct (IH (step b o) Hall' Hs Hf) as [(? & ? & ?)|?]; [left|right; auto].
    repeat split; auto. congruence.
  - right. now apply record_run_open_state.
Qed.

(** Enough failures in a row open a closed breaker. *)
Lemma failures_open (fs : list Op) :
  forall b : CircuitBreaker,
    Forall is_failure fs -> _state b = CLOSED ->
    _failure_threshold b <= _failure_count b + Z.of_nat (length fs) ->
    _failure_count b < _failure_threshold b ->
    _state (run fs b) = OPEN.
Proof.
  induction fs as [|o fs IH]; intros b Hall Hst Hge Hlt; [cbn in Hge; lia|].
  inversion Hall as [|? ? Ho Hall']; subst.
  change (run (o :: fs) b) with (run fs (step b o)).
  destruct o as [now|now| |now]; cbn in Ho; try contradiction. cbn [step].
  destruct b as [F cd sth st fc sc oa]. cbn in *. subst st.
  unfold record_failure; cbn. destruct (F <=? fc + 1) eqn:E.
  - apply record_run_open_state; [|reflexivity].
    now apply failures_are_records.
  - apply Z.leb_gt in E. apply IH; cbn; auto; lia.
Qed.

(** A closed breaker with [c] failures counted that ends up open has seen
    the missing failures in a row. *)
Lemma open_has_streak (ops : list Op) :
  forall b : CircuitBreaker,
    Forall is_record ops -> _state b = CLOSED ->
    0 <= _failure_count b < _failure_threshold b ->
    _state (run ops b) = OPEN ->
    (exists fs post,
        ops = fs ++ post /\ Forall is_failure fs
        /\ _failure_count b + Z.of_nat (length fs) = _failure_threshold b)
    \/ (exists pre fs post,
          ops = pre ++ fs ++ post /\ Forall is_failure fs
          /\ Z.of_nat (length fs) = _failure_threshold b).
Proof.
  induction ops as [|o ops IH]; intros b Hall Hst Hfc Hopen.
  - cbn in Hopen. congruence.
  - inversion Hall as [|? ? Ho Hall']; subst.
    change (run (o :: ops) b) with (run ops (step b o)) in Hopen.
    destruct b as [F cd sth st fc sc oa]. cbn in Hst, Hfc. subst st.
    cbn [_failure_count _failure_threshold].
    destruct o as [now|now| |now]; cbn in Ho; try contradiction;
      cbn [step] in Hopen.
    + (* a success: the count restarts *)
      unfold record_success in Hopen; cbn in Hopen.
      match type of Hopen with _state (run ops ?b') = _ =>
        destruct (IH b' Hall' eq_refl ltac:(cbn; lia) Hopen)
          as [(fs & post & -> & Hfs & Hlen)
             |(pre & fs & post & -> & Hfs & Hlen)]
      end; cbn in Hlen; right.
      * exists [RecordSuccess], fs, post. repeat split; auto; lia.
      * exists (RecordSuccess :: pre), fs, post. repeat split; auto.
    + unfold record_failure in Hopen; cbn in Hopen.
      destruct (F <=? fc + 1) eqn:E.
      * apply Z.leb_le in E. left. exists [RecordFailure now], ops.
        repeat split; [repeat constructor|cbn; lia].
      * apply Z.leb_gt in E.
        match type of Hopen with _state (run ops ?b') = _ =>
          destruct (IH b' Hall' eq_refl ltac:(cbn; lia) Hopen)
            as [(fs & post & -> & Hfs & Hlen)
               |(pre & fs & post & -> & Hfs & Hlen)]
        end; cbn in Hlen.
        -- left. exists (RecordFailure now :: fs), post.
           repeat split; [constructor; [exact I|exact Hfs]|].
           cbn [length]. lia.
        -- right. exists (RecordFailure now :: pre), fs, post.
           repeat split; auto.
Qed.

(** Only consecutive failures count: after any reports of outcomes on a
    closed breaker with nothing counted, the breaker is open if and only if
    the reports contain as many failures in a row as the threshold asks
    for, and it is closed otherwise, however many failures there were in
    all. *)
Theorem opens_iff_consecutive_failures (b : CircuitBreaker)
    (ops : list Op) :
  _state b = CLOSED -> _failure_count b = 0 ->
  1 <= _failure_threshold b ->
  Forall is_record ops ->
  (_state (run ops b) = OPEN
   <-> exists pre fs post,
         ops = pre ++ fs ++ post /\ Forall is_failure fs
         /\ Z.of_nat (length fs) = _failure_threshold b)
  /\ (_state (run ops b) = OPEN \/ _state (run ops b) = CLOSED).
Proof.
  intros Hst Hfc HF Hall. split.
  - split.
    + intros Hopen.
      destruct (open_has_streak ops b Hall Hst ltac:(lia) Hopen)
        as [(fs & post & -> & Hfs & Hlen)|H]; [|exact H].
      exists [], fs, post. repeat split; auto; lia.
    + intros (pre & fs & post & -> & Hfs & Hlen).
      apply Forall_app in Hall as [Hpre Hall].
      apply Forall_app in Hall as [_ Hpost].
      rewrite !run_app.
      assert (Hmid : _state (run fs (run pre b)) = OPEN).
      { destruct (record_run_cases pre b Hpre Hst ltac:(lia))
          as [(Hs & Hf & Ht)|Hs].
        - destruct (Z_lt_le_dec (_failure_count (run pre b))
                      (_failure_threshold (run pre b))) as [Hlt|Hge].
          + apply failures_open; auto. lia.
          + (* cannot happen, but the failures open it at once anyway *)
            destruct fs as [|o fs]; [cbn in Hlen; lia|].
            inversion Hfs as [|? ? Ho Hfs']; subst.
            change (run (o :: fs) (run pre b))
              with (run fs (step (run pre b) o)).
            destruct o as [| | |now]; cbn in Ho; try contradiction.
            cbn [step]. apply record_run_open_state.
            * now apply failures_are_records.
            * destruct (run pre b) as [F cd sth st fc sc oa]. cbn in *.
              subst st. unfold record_failure; cbn.
              destruct (F <=? fc + 1) eqn:E; [reflexivity|].
              apply Z.leb_gt in E. lia.
        - apply record_run_open_state; [|exact Hs].
          now apply failures_are_records. }
      now apply record_run_open_state.
  - destruct (record_run_cases ops b Hall Hst ltac:(lia)) as [(? & _)|?]; auto.
Qed.

(** Threshold 3: two failures, a success, two failures leave the breaker
    closed; three failures in a row after that open it. *)
Lemma opens_iff_consecutive_failures_witness :
  let b := __init__ 3 60 1 in
  let ops := [RecordFailure 0; RecordFailure 1; RecordSuccess;
              RecordFailure 2; RecordFailure 3] in
  _state b = CLOSED /\ _failure_count b = 0 /\ 1 <= _failure_threshold b
  /\ Forall is_record (ops ++ [RecordFailure 4])
  /\ _state (run ops b) = CLOSED
  /\ _state (run (ops ++ [RecordFailure 4]) b) = OPEN.
Proof.
  intros b ops.
  assert (H1 : 1 <= _failure_threshold b) by (cbn; lia).
  assert (Hall : Forall is_record (ops ++ [RecordFailure 4]))
    by (repeat constructor).
  destruct (opens_iff_consecutive_failures b _ eq_refl eq_refl H1 Hall)
    as [[_ Hback] _].
  split; [reflexivity|]. split; [reflexivity|]. split; [exact H1|].
  split; [exact Hall|]. split; [reflexivity|].
  apply Hback.
  exists [RecordFailure 0; RecordFailure 1; RecordSuccess],
    [RecordFailure 2; RecordFailure 3; RecordFailure 4], [].
  split; [reflexivity|]. split; [repeat constructor|reflexivity].
Defined.


(** *** Probing *)

Lemma successes_below (k : nat) :
  forall b : CircuitBreaker,
    _state b = HALF_OPEN ->
    _success_count b + Z.of_nat k < _success_threshold b ->
    run (repeat RecordSuccess k) b
    = set_success_count (_success_count b + Z.of_nat k) b.
Proof.
  induction k as [|k IH]; intros [F cd sth st fc sc oa] Hst Hlt;
    cbn in Hst; subst st.
  - cbn. unfold set_success_count; cbn. f_equal. lia.
  - cbn [repeat]. change (run (?o :: ?ops) ?b) with (run ops (step b o)).
    cbn [step]. unfold record_success; cbn.
    cbn [_success_count _success_threshold] in Hlt.
    destruct (sth <=? sc + 1) eqn:E; [apply Z.leb_le in E; lia|].
    rewrite IH; cbn; [|reflexivity|lia].
    unfold set_success_count; cbn. f_equal. lia.
Qed.

(** A half-open breaker with success threshold [n >= 1] closes on the
    [n]-th success in a row and not before: after [k < n] successes it is
    still HALF_OPEN with [k] counted, admits every request, and one failure
    reopens it at once with the count dropped; the [n]-th success closes it
    with both counters at 0. *)
Theorem half_open_closes_after_threshold_successes (b : CircuitBreaker)
    (k : nat) :
  _state b = HALF_OPEN -> _success_count b = 0 ->
  Z.of_nat k < _success_threshold b ->
  let bk := run (repeat RecordSuccess k) b in
  bk = set_success_count (Z.of_nat k) b
  /\ (forall now, allow_request now bk = (bk, true))
  /\ (forall t, record_failure t bk
               = set_success_count 0 (set_opened_at t (set_state OPEN b)))
  /\ (Z.of_nat k + 1 = _success_threshold b ->
      run (repeat RecordSuccess (S k)) b
      = set_success_count 0 (set_failure_count 0 (set_state CLOSED b))).
Proof.
  intros Hst Hsc Hlt bk.
  assert (Hbk : bk = set_success_count (Z.of_nat k) b).
  { subst bk. rewrite successes_below; [|exact Hst|lia]. now rewrite Hsc. }
  assert (Hlast : Z.of_nat k + 1 = _success_threshold b ->
            run (repeat RecordSuccess (S k)) b
            = set_success_count 0 (set_failure_count 0 (set_state CLOSED b))).
  { intros Hk. replace (S k) with (k + 1)%nat by lia.
    rewrite repeat_app, run_app. fold bk. rewrite Hbk.
    destruct b as [F cd sth st fc sc oa]. cbn in Hst, Hsc, Hk. subst st sc.
    cbn. unfold record_success; cbn.
    destruct (sth <=? Z.of_nat k + 1) eqn:E; [reflexivity|].
    apply Z.leb_gt in E. lia. }
  split; [exact Hbk|]. rewrite Hbk.
  destruct b as [F cd sth st fc sc oa]. cbn in Hst, Hsc. subst st sc.
  split; [reflexivity|]. split; [reflexivity|]. exact Hlast.
Qed.

(** Success threshold 3, as [CircuitBreaker(success_threshold=3)] gives
    it: two successes keep the breaker half-open, the third closes it. *)
Lemma half_open_closes_after_threshold_successes_witness :
  let b := fst (allow_request 60 (record_failure 0 (__init__ 1 60 3))) in
  _state b = HALF_OPEN /\ _success_count b = 0
  /\ Z.of_nat 2 < _success_threshold b
  /\ _state (run [RecordSuccess; RecordSuccess] b) = HALF_OPEN
  /\ _state (run [RecordSuccess; RecordSuccess; RecordSuccess] b) = CLOSED
  /\ _failure_count (run [RecordSuccess; RecordSuccess; RecordSuccess] b) = 0.
Proof.
  intros b.
  assert (Hlt : Z.of_nat 2 < _success_threshold b) by reflexivity.
  destruct (half_open_closes_after_threshold_successes b 2 eq_refl eq_refl Hlt)
    as (Hbk & _ & _ & Hclose).
  split; [reflexivity|]. split; [reflexivity|]. split; [exact Hlt|].
  cbn [repeat] in Hbk, Hclose. split; [now rewrite Hbk|].
  rewrite Hclose by reflexivity. split; reflexivity.
Defined.


End BreakerFacts.

(** ** The rate limiter *)

Module LimiterFacts.
Import Limiter.

(** [check] reads and writes the entry of its key only. *)
Lemma check_window_step (now : Q) (k : string) (l : RateLimiter) :
  let r := window_step (_max l) (_window l) now
             (default [] (_requests l !! k)) in
  check now k l
  = (set_requests (<[k := fst r]> (_requests l)) l, snd r).
Proof.
  unfold check, window_step; cbn.
  destruct (_max l <=? _); reflexivity.
Qed.

Lemma check_config (now : Q) (k : string) (l : RateLimiter) :
  _max (fst (check now k l)) = _max l
  /\ _window (fst (check now k l)) = _window l.
Proof. rewrite check_window_step. cbn. auto. Qed.

Lemma check_lookup_same (now : Q) (k : string) (l : RateLimiter) :
  _requests (fst (check now k l)) !! k
  = Some (fst (window_step (_max l) (_window l) now
                 (default [] (_requests l !! k)))).
Proof. rewrite check_window_step. cbn. apply lookup_insert_eq. Qed.

Lemma check_lookup_other (now : Q) (k k' : string) (l : RateLimiter) :
  k <> k' ->
  _requests (fst (check now k l)) !! k' = _requests l !! k'.
Proof.
  intros Hne. rewrite check_window_step. cbn.
  now apply lookup_insert_ne.
Qed.

Lemma run_one_key (k : string) (times : list Q) :
  forall l : RateLimiter,
    snd (run (map (fun t => (t, k)) times) l)
    = window_run (_max l) (_window l) times (default [] (_requests l !! k)).
Proof.
  induction times as [|now rest IH]; intros l; [reflexivity|].
  cbn [map run window_run].
  pose proof (check_lookup_same now k l) as Hk.
  destruct (check_config now k l) as [Hm Hw].
  destruct (check now k l) as [l1 r] eqn:E.
  pose proof (check_window_step now k l) as Hc. rewrite E in Hc.
  cbn [fst] in Hk, Hm, Hw.
  specialize (IH l1). destruct (run _ l1) as [l2 rs]. cbn [snd] in *.
  destruct (window_step _ _ _ _) as [stored r'].
  cbn [fst snd] in *. injection Hc as _ ->.
  rewrite IH, Hk, Hm, Hw. reflexivity.
Qed.

(** C7: a new limiter with [max_requests = 2] and [window_seconds = 60],
    asked for one key at 0 s, 1 s, 2 s and 61 s, answers true, true, false,
    true. *)
Theorem sliding_window_scenario (k : string) :
  snd (run [(0%Q, k); (1%Q, k); (2%Q, k); (61%Q, k)] (__init__ 2 60))
  = [true; true; false; true].
Proof.
  change [(0%Q, k); (1%Q, k); (2%Q, k); (61%Q, k)]
    with (map (fun t : Q => (t, k)) [0%Q; 1%Q; 2%Q; 61%Q]).
  rewrite run_one_key. cbn [__init__ _requests _max _window].
  rewrite lookup_empty. reflexivity.
Qed.

(** *** Independence of keys *)

Lemma same_view_refl (k : string) (l : RateLimiter) : same_view k l l.
Proof. unfold same_view. auto. Qed.

Lemma check_other_same_view (now : Q) (k k' : string) (l l' : RateLimiter) :
  k <> k' -> same_view k' l l' -> same_view k' (fst (check now k l)) l'.
Proof.
  intros Hne (Hm & Hw & Hr). destruct (check_config now k l) as [Hm' Hw'].
  unfold same_view. rewrite Hm', Hw', check_lookup_other by exact Hne. auto.
Qed.

Lemma same_view_sym (k : string) (l l' : RateLimiter) :
  same_view k l l' -> same_view k l' l.
Proof. unfold same_view. intuition congruence. Qed.

Lemma check_same_view (now : Q) (k : string) (l l' : RateLimiter) :
  same_view k l l' ->
  snd (check now k l) = snd (check now k l')
  /\ same_view k (fst (check now k l)) (fst (check now k l')).
Proof.
  intros (Hm & Hw & Hr). unfold same_view.
  rewrite !check_lookup_same.
  destruct (check_config now k l) as [-> ->].
  destruct (check_config now k l') as [-> ->].
  rewrite !check_window_step. cbn [snd]. rewrite Hm, Hw, Hr. auto.
Qed.

Lemma results_for_without (A B : string) (calls : list (Q * string)) :
  A <> B ->
  forall l l' : RateLimiter,
    same_view B l l' ->
    results_for B calls (snd (run calls l))
    = results_for B (without A calls) (snd (run (without A calls) l')).
Proof.
  intros HAB. induction calls as [|[now k] rest IH]; intros l l' Hv;
    [reflexivity|].
  cbn [run without List.filter snd].
  destruct (String.eqb_spec k A) as [->|HkA]; cbn [negb].
  - (* a call of [A]: absent from the second run, invisible from [B] *)
    pose proof (check_other_same_view now A B l l' HAB Hv) as Hv1.
    destruct (check now A l) as [l1 r]. cbn [fst] in Hv1.
    specialize (IH l1 l' Hv1). destruct (run rest l1) as [l2 rs].
    cbn [results_for snd] in *.
    destruct (String.eqb_spec A B) as [E|_]; [contradiction|]. exact IH.
  - cbn [run]. destruct (String.eqb_spec k B) as [->|HkB].
    + (* a call of [B]: same list found, same answer *)
      destruct (check_same_view now B l l' Hv) as [Hr Hv1].
      destruct (check now B l) as [l1 r], (check now B l') as [l1' r'].
      cbn [fst snd] in *. subst r'.
      specialize (IH l1 l1' Hv1). fold (without A rest).
      destruct (run rest l1) as [l2 rs], (run (without A rest) l1') as [l2' rs'].
      cbn [results_for snd] in *. rewrite String.eqb_refl. f_equal. exact IH.
    + (* a call of a third key *)
      pose proof (check_other_same_view now k B l l' HkB Hv) as Hv1.
      apply same_view_sym in Hv1.
      pose proof (check_other_same_view now k B l' _ HkB Hv1) as Hv2.
      apply same_view_sym in Hv2.
      destruct (check now k l) as [l1 r], (check now k l') as [l1' r'].
      cbn [fst] in Hv2. specialize (IH l1 l1' Hv2). fold (without A rest).
      destruct (run rest l1) as [l2 rs], (run (without A rest) l1') as [l2' rs'].
      cbn [results_for snd] in *.
      destruct (String.eqb_spec k B) as [E|_]; [contradiction|]. exact IH.
Qed.

(** C9: for distinct keys [A] and [B], any limiter and any sequence of
    [check] calls, the answers given to the calls of [B] are the answers
    they get in the run from which every call of [A] is removed. *)
Theorem keys_independent (A B : string) (calls : list (Q * string))
    (l : RateLimiter) :
  A <> B ->
  results_for B calls (snd (run calls l))
  = results_for B (without A calls) (snd (run (without A calls) l)).
Proof.
  intros HAB. apply results_for_without; [exact HAB|apply same_view_refl].
Qed.

(** Key "a" uses up its quota of one; key "b" is answered as if "a" had
    never called. *)
Lemma keys_independent_witness :
  "a"%string <> "b"%string
  /\ results_for "b"
       [(0%Q, "a"); (1%Q, "a"); (2%Q, "b"); (3%Q, "a"); (4%Q, "b")]%string
       (snd (run [(0%Q, "a"); (1%Q, "a"); (2%Q, "b"); (3%Q, "a"); (4%Q, "b")]%string
               (__init__ 1 60)))
     = results_for "b" [(2%Q, "b"); (4%Q, "b")]%string
         (snd (run [(2%Q, "b"); (4%Q, "b")]%string (__init__ 1 60))).
Proof.
  split; [discriminate|].
  apply (keys_independent "a" "b"
           [(0%Q, "a"); (1%Q, "a"); (2%Q, "b"); (3%Q, "a"); (4%Q, "b")]%string
           (__init__ 1 60)).
  discriminate.
Defined.

(** *** Size and order of the stored lists *)

Lemma filter_length_bound {X : Type} (p : X -> bool) (xs : list X) :
  (length (List.filter p xs) <= length xs)%nat.
Proof.
  induction xs as [|x xs IH]; cbn; [lia|]. destruct (p x); cbn; lia.
Qed.

Lemma filter_StronglySorted (p : Q -> bool) (ts : list Q) :
  StronglySorted Qle ts -> StronglySorted Qle (List.filter p ts).
Proof.
  induction 1 as [|t ts Hs IH Hall]; cbn; [constructor|].
  destruct (p t); [|exact IH]. constructor; [exact IH|].
  apply List.Forall_forall. intros u Hu. apply filter_In in Hu as [Hu _].
  rewrite List.Forall_forall in Hall. now apply Hall.
Qed.

Lemma filter_Forall (p : Q -> bool) (P : Q -> Prop) (ts : list Q) :
  Forall P ts -> Forall P (List.filter p ts).
Proof.
  rewrite !List.Forall_forall. intros H u Hu.
  apply filter_In in Hu as [Hu _]. now apply H.
Qed.

Lemma snoc_StronglySorted (ts : list Q) (now : Q) :
  StronglySorted Qle ts -> Forall (fun t => (t <= now)%Q) ts ->
  StronglySorted Qle (ts ++ [now]).
Proof.
  induction 1 as [|t ts Hs IH Hall]; intros Hle; cbn.
  - constructor; constructor.
  - inversion Hle as [|? ? Ht Hts]; subst.
    constructor; [now apply IH|].
    apply Forall_app. split; [exact Hall|]. constructor; [exact Ht|constructor].
Qed.

(** What one key's step keeps: the bound on the length, the order, and
    that nothing stored is later than the call. *)
Lemma window_step_bounded (mx : Z) (w bound now : Q) (found : list Q) :
  (bound <= now)%Q ->
  Z.of_nat (length found) <= mx ->
  StronglySorted Qle found -> Forall (fun t => (t <= bound)%Q) found ->
  let stored := fst (window_step mx w now found) in
  Z.of_nat (length stored) <= mx
  /\ StronglySorted Qle stored
  /\ Forall (fun t => (t <= now)%Q) stored.
Proof.
  intros Hb Hlen Hs Hall. unfold window_step.
  set (pruned := List.filter _ found).
  assert (Hps : StronglySorted Qle pruned) by now apply filter_StronglySorted.
  assert (Hpa : Forall (fun t => (t <= now)%Q) pruned).
  { apply filter_Forall. revert Hall. apply List.Forall_impl. intros t Ht. lra. }
  assert (Hpl : (length pruned <= length found)%nat)
    by apply filter_length_bound.
  destruct (mx <=? Z.of_nat (length pruned)) eqn:E; cbn.
  - (* denied: the pruned list is stored *)
    split; [lia|auto].
  - apply Z.leb_gt in E. rewrite length_app. cbn. split; [lia|].
    split; [now apply snoc_StronglySorted|].
    apply Forall_app. split; [exact Hpa|]. constructor; [lra|constructor].
Qed.

Lemma check_bounded_sorted (bound now : Q) (k : string) (l : RateLimiter) :
  0 <= _max l -> (bound <= now)%Q ->
  bounded_sorted bound l -> bounded_sorted now (fst (check now k l)).
Proof.
  intros Hmx Hb Hinv k' ts Hts.
  destruct (check_config now k l) as [Hm _]. rewrite Hm.
  destruct (decide (k = k')) as [<-|Hne].
  - rewrite check_lookup_same in Hts. injection Hts as <-.
    destruct (_requests l !! k) as [found|] eqn:Hf; cbn [default].
    + destruct (Hinv k found Hf) as (Hlen & Hs & Hall).
      now apply (window_step_bounded _ _ bound).
    + apply (window_step_bounded _ _ bound); cbn; auto; constructor.
  - rewrite check_lookup_other in Hts by exact Hne.
    destruct (Hinv k' ts Hts) as (Hlen & Hs & Hall).
    split; [exact Hlen|]. split; [exact Hs|].
    revert Hall. apply List.Forall_impl. intros t Ht. lra.
Qed.

Lemma run_bounded_sorted (calls : list (Q * string)) :
  forall (bound : Q) (l : RateLimiter),
    0 <= _max l ->
    StronglySorted Qle (bound :: map fst calls) ->
    bounded_sorted bound l ->
    exists bound', bounded_sorted bound' (fst (run calls l))
                   /\ _max (fst (run calls l)) = _max l.
Proof.
  induction calls as [|[now k] rest IH]; intros bound l Hmx Hs Hinv.
  - exists bound. cbn. auto.
  - cbn [map fst] in Hs. cbn [run].
    apply StronglySorted_inv in Hs as [Hs Hall].
    inversion Hall as [|? ? Hb _]; subst.
    pose proof (check_bounded_sorted bound now k l Hmx Hb Hinv) as Hinv1.
    destruct (check_config now k l) as [Hm _].
    destruct (check now k l) as [l1 r]. cbn [fst] in *.
    destruct (IH now l1) as (bound' & Hinv2 & Hm2); [lia|exact Hs|exact Hinv1|].
    destruct (run rest l1) as [l2 rs]. cbn [fst] in *.
    exists bound'. split; [exact Hinv2|congruence].
Qed.

(** A call appends its clock reading exactly when fewer than [_max]
    readings survive the pruning, and is allowed exactly then. *)
Lemma check_appends_below_max (now : Q) (k : string) (l : RateLimiter) :
  let pruned := List.filter (fun t => Qgt_bool t (now - _window l)%Q)
                  (default [] (_requests l !! k)) in
  (snd (check now k l) = true <-> Z.of_nat (length pruned) < _max l)
  /\ _requests (fst (check now k l)) !! k
     = Some (if snd (check now k l) then pruned ++ [now] else pruned).
Proof.
  intros pruned. rewrite check_lookup_same, check_window_step.
  unfold window_step. fold pruned. cbn [snd].
  destruct (_max l <=? Z.of_nat (length pruned)) eqn:E; cbn [fst snd].
  - apply Z.leb_le in E. split; [|reflexivity]. split; [discriminate|lia].
  - apply Z.leb_gt in E. split; [|reflexivity]. split; [lia|reflexivity].
Qed.



(** The order of the stored readings is the order in which the calls take
    the lock: [check] reads the clock before it, so a call that read 2 s and
    enters ahead of one that read 1 s leaves the list [2; 1]. The hypothesis
    on the readings in the theorem above is needed. *)
Lemma readings_in_lock_order (k : string) :
  _requests (fst (run [(2%Q, k); (1%Q, k)] (__init__ 2 60))) !! k
  = Some [2%Q; 1%Q].
Proof.
  cbn [run].
  pose proof (check_lookup_same 2 k (__init__ 2 60)) as H1.
  destruct (check_config 2 k (__init__ 2 60)) as [Hm Hw].
  destruct (check 2 k (__init__ 2 60)) as [l1 r1]. cbn [fst] in *.
  pose proof (check_lookup_same 1 k l1) as H2.
  destruct (check 1 k l1) as [l2 r2]. cbn [fst] in *.
  rewrite H2, H1, Hm, Hw. cbn [__init__ _requests _max _window].
  rewrite lookup_empty. reflexivity.
Qed.


(** *** Pruning against the full record *)

(** Pruning at a cutoff loses nothing a later cutoff would keep. *)
Lemma filter_cut_cut (c1 c2 : Q) (ts : list Q) :
  (c1 <= c2)%Q ->
  List.filter (fun t => Qgt_bool t c2) (List.filter (fun t => Qgt_bool t c1) ts)
  = List.filter (fun t => Qgt_bool t c2) ts.
Proof.
  intros Hle. induction ts as [|t ts IH]; [reflexivity|]. cbn.
  destruct (Qgt_bool t c1) eqn:E1; cbn; [now rewrite IH|].
  destruct (Qgt_bool t c2) eqn:E2; [|exact IH].
  apply Qgt_bool_iff in E2.
  assert (E : Qgt_bool t c1 = true) by (apply Qgt_bool_iff; lra).
  congruence.
Qed.

Lemma times_after_app (cut : Q) (k : string) (h h' : list (Q * string)) :
  times_after cut k (h ++ h') = times_after cut k h ++ times_after cut k h'.
Proof. unfold times_after. now rewrite List.filter_app, map_app. Qed.

Lemma check_agrees (bound now : Q) (k : string) (l : RateLimiter)
    (hist : list (Q * string)) :
  (bound <= now)%Q -> agrees bound l hist ->
  let r := Z.of_nat (length (times_after (now - _window l) k hist))
           <? _max l in
  snd (check now k l) = r
  /\ agrees now (fst (check now k l)) (if r then hist ++ [(now, k)] else hist).
Proof.
  intros Hb Hag r.
  pose (stored := default [] (_requests l !! k)).
  pose (pruned := List.filter (fun t => Qgt_bool t (now - _window l)) stored).
  assert (Hpr : pruned = times_after (now - _window l) k hist)
    by (apply Hag; lra).
  assert (Hstep : window_step (_max l) (_window l) now stored
                  = if r then (pruned ++ [now], true) else (pruned, false)).
  { unfold window_step. fold pruned. subst r. rewrite <- Hpr, Z.ltb_antisym.
    destruct (_max l <=? _); reflexivity. }
  assert (Hr : snd (check now k l) = r).
  { rewrite check_window_step. fold stored. rewrite Hstep.
    destruct r; reflexivity. }
  split; [exact Hr|].
  intros k' cut Hcut. destruct (check_config now k l) as [_ Hw].
  rewrite Hw in Hcut.
  assert (Hcc : List.filter (fun t => Qgt_bool t cut) pruned
                = times_after cut k hist).
  { unfold pruned. rewrite filter_cut_cut by exact Hcut. apply Hag. lra. }
  destruct (decide (k = k')) as [<-|Hne].
  - rewrite check_lookup_same. cbn [default]. fold stored. rewrite Hstep.
    destruct r; cbn [fst id]; [|exact Hcc].
    rewrite List.filter_app, times_after_app, Hcc. f_equal.
    unfold times_after. cbn. rewrite String.eqb_refl. cbn.
    destruct (Qgt_bool now cut); reflexivity.
  - rewrite check_lookup_other by exact Hne.
    assert (Hk' : times_after cut k' (if r then hist ++ [(now, k)] else hist)
                  = times_after cut k' hist).
    { destruct r; [|reflexivity]. rewrite times_after_app.
      unfold times_after at 2. cbn.
      destruct (String.eqb_spec k k') as [E|_]; [contradiction|].
      cbn. apply app_nil_r. }
    rewrite Hk'. apply Hag. lra.
Qed.

Lemma run_agrees (calls : list (Q * string)) :
  forall (bound : Q) (l : RateLimiter) (hist : list (Q * string)),
    StronglySorted Qle (bound :: map fst calls) ->
    agrees bound l hist ->
    snd (run calls l) = unpruned_run (_max l) (_window l) hist calls.
Proof.
  induction calls as [|[now k] rest IH]; intros bound l hist Hs Hag;
    [reflexivity|].
  cbn [map fst] in Hs. cbn [run unpruned_run].
  apply StronglySorted_inv in Hs as [Hs Hall].
  inversion Hall as [|? ? Hb _]; subst.
  destruct (check_agrees bound now k l hist Hb Hag) as [Hr Hag'].
  destruct (check_config now k l) as [Hm Hw].
  destruct (check now k l) as [l1 r]. cbn [fst snd] in *.
  specialize (IH now l1 _ Hs Hag'). rewrite Hm, Hw in IH.
  destruct (run rest l1) as [l2 rs]. cbn [snd] in *.
  rewrite Hr. f_equal. exact IH.
Qed.

Lemma new_limiter_agrees (bound : Q) (max_requests : Z)
    (window_seconds : Q) :
  agrees bound (__init__ max_requests window_seconds) [].
Proof. intros k cut _. cbn. now rewrite lookup_empty. Qed.

Lemma sorted_from_first (now : Q) (times : list Q) :
  Sorted Qle (now :: times) -> StronglySorted Qle (now :: now :: times).
Proof.
  intros Hs.
  assert (Htrans : Transitive Qle) by (intros x y z; apply Qle_trans).
  apply Sorted_StronglySorted in Hs; [|exact Htrans].
  constructor; [exact Hs|]. constructor; [apply Qle_refl|].
  now apply StronglySorted_inv in Hs as [_ Hall].
Qed.




(** *** The quota of a window *)

Lemma filter_length_impl {X : Type} (p q : X -> bool) (xs : list X) :
  (forall x, p x = true -> q x = true) ->
  (length (List.filter p xs) <= length (List.filter q xs))%nat.
Proof.
  intros Hpq. induction xs as [|x xs IH]; cbn; [lia|].
  destruct (p x) eqn:Ep; [rewrite (Hpq x Ep); cbn; lia|].
  destruct (q x); cbn; lia.
Qed.

(** The record of the limiter that never prunes keeps every window within
    the quota. *)
Lemma unpruned_window_bound (mx : Z) (w : Q) (calls : list (Q * string)) :
  forall hist : list (Q * string),
    (forall k T, Z.of_nat (length (in_window w T k hist)) <= mx) ->
    forall k T,
      Z.of_nat (length (in_window w T k
                          (hist ++ allowed_calls calls
                                     (unpruned_run mx w hist calls)))) <= mx.
Proof.
  induction calls as [|[now k0] rest IH]; intros hist Hh k T.
  - cbn. rewrite app_nil_r. apply Hh.
  - cbn [unpruned_run allowed_calls].
    destruct (Z.of_nat (length (times_after (now - w) k0 hist)) <? mx) eqn:Hr.
    2:{ apply IH. exact Hh. }
    change (hist ++ (now, k0) :: ?x) with (hist ++ [(now, k0)] ++ x).
    rewrite app_assoc. apply IH. clear k T. intros k T.
    apply Z.ltb_lt in Hr. unfold in_window. rewrite List.filter_app, length_app.
    fold (in_window w T k hist). cbn [List.filter fst snd].
    destruct (String.eqb k0 k && Qgt_bool now (T - w) && Qle_bool now T) eqn:E;
      [|specialize (Hh k T); cbn; lia].
    apply andb_true_iff in E as [E Hle]. apply andb_true_iff in E as [Hk Hgt].
    apply String.eqb_eq in Hk. subst k0.
    apply Qle_bool_iff in Hle. apply Qgt_bool_iff in Hgt.
    assert (Hsub : (length (in_window w T k hist)
                    <= length (times_after (now - w) k hist))%nat).
    { unfold times_after. rewrite length_map. apply filter_length_impl.
      intros [t k'] Hc. cbn [fst snd] in *.
      apply andb_true_iff in Hc as [Hc _].
      apply andb_true_iff in Hc as [Hk' Ht]. rewrite Hk'. cbn.
      apply Qgt_bool_iff in Ht. apply Qgt_bool_iff. lra. }
    cbn [length]. lia.
Qed.




(** *** After the window, and with no quota *)

(** Every stored reading is the reading of an earlier call of that key. *)
Lemma run_stored_from_calls (P : Q -> string -> Prop)
    (calls : list (Q * string)) :
  forall l : RateLimiter,
    (forall k ts, _requests l !! k = Some ts -> Forall (fun t => P t k) ts) ->
    (forall t k, In (t, k) calls -> P t k) ->
    forall k ts,
      _requests (fst (run calls l)) !! k = Some ts ->
      Forall (fun t => P t k) ts.
Proof.
  induction calls as [|[now k0] rest IH]; intros l Hl Hc k ts Hts;
    [now apply (Hl k)|].
  cbn [run] in Hts.
  pose proof (check_lookup_same now k0 l) as Hsame.
  pose proof (fun k' => check_lookup_other now k0 k' l) as Hother.
  destruct (check now k0 l) as [l1 r]. cbn [fst] in *.
  assert (Hl1 : forall k ts, _requests l1 !! k = Some ts ->
                             Forall (fun t => P t k) ts).
  { intros k1 ts1 H1. destruct (decide (k0 = k1)) as [<-|Hne].
    - rewrite Hsame in H1. injection H1 as <-.
      unfold window_step.
      assert (Hst : Forall (fun t => P t k0) (default [] (_requests l !! k0))).
      { destruct (_requests l !! k0) as [st|] eqn:E; cbn; [|constructor].
        now apply (Hl k0). }
      destruct (_max l <=? _); cbn [fst].
      + now apply filter_Forall.
      + apply Forall_app. split; [now apply filter_Forall|].
        constructor; [|constructor]. apply Hc. now left.
    - rewrite Hother in H1 by exact Hne. now apply (Hl k1). }
  specialize (IH l1 Hl1 (fun t k' H => Hc t k' (or_intror H)) k ts).
  destruct (run rest l1) as [l2 rs]. cbn [fst] in *. now apply IH.
Qed.

Lemma run_config (calls : list (Q * string)) :
  forall l : RateLimiter,
    _max (fst (run calls l)) = _max l
    /\ _window (fst (run calls l)) = _window l.
Proof.
  induction calls as [|[now k] rest IH]; intros l; [cbn; auto|].
  cbn [run]. destruct (check_config now k l) as [Hm Hw].
  destruct (check now k l) as [l1 r]. cbn [fst] in *.
  specialize (IH l1). destruct (run rest l1) as [l2 rs]. cbn [fst] in *.
  destruct IH. split; congruence.
Qed.

(** No lockout: with a quota of at least 1, whatever calls came before and
    however many were refused, a call of a key made a full window or more
    after every earlier call of that key is allowed, and the key's stored
    list then holds that call alone. *)
Theorem quota_returns_after_window (max_requests : Z) (window_seconds : Q)
    (calls : list (Q * string)) (k : string) (now : Q) :
  1 <= max_requests ->
  (forall t, In (t, k) calls -> (t + window_seconds <= now)%Q) ->
  let l := fst (run calls (__init__ max_requests window_seconds)) in
  snd (check now k l) = true
  /\ _requests (fst (check now k l)) !! k = Some [now].
Proof.
  intros Hmx Hold l.
  destruct (run_config calls (__init__ max_requests window_seconds))
    as [Hm Hw]. fold l in Hm, Hw. cbn in Hm, Hw.
  assert (Hpr : List.filter (fun t => Qgt_bool t (now - _window l))
                  (default [] (_requests l !! k)) = []).
  { destruct (_requests l !! k) as [st|] eqn:E; cbn; [|reflexivity].
    pose proof (run_stored_from_calls
                  (fun t k' => k' = k -> (t + window_seconds <= now)%Q) calls
                  (__init__ max_requests window_seconds)) as H.
    specialize (H ltac:(intros ? ? Hl; cbn in Hl; rewrite lookup_empty in Hl;
                        discriminate)
                  ltac:(intros t k' Hin ->; now apply Hold) k st E).
    rewrite Hw. clear E. induction H as [|t st Ht _ IH]; [reflexivity|].
    cbn. specialize (Ht eq_refl).
    destruct (Qgt_bool t (now - window_seconds)) eqn:Eg; [|exact IH].
    apply Qgt_bool_iff in Eg. lra. }
  rewrite check_lookup_same, check_window_step. unfold window_step.
  rewrite Hpr, Hm. cbn [length].
  destruct (max_requests <=? Z.of_nat 0) eqn:E; [apply Z.leb_le in E; lia|].
  split; reflexivity.
Qed.

(** Quota 1 per 60 s: after a burst at 0 to 2 s the key is served again at
    62 s. *)
Lemma quota_returns_after_window_witness :
  1 <= 1
  /\ (forall t, In (t, "a"%string)
                  [(0%Q, "a"); (1%Q, "a"); (2%Q, "a"); (30%Q, "b")]%string ->
                (t + 60 <= 62)%Q)
  /\ snd (check 62 "a"
            (fst (run [(0%Q, "a"); (1%Q, "a"); (2%Q, "a"); (30%Q, "b")]%string
                    (__init__ 1 60)))) = true.
Proof.
  assert (H1 : 1 <= 1) by lia.
  assert (Hold : forall t, In (t, "a"%string)
                   [(0%Q, "a"); (1%Q, "a"); (2%Q, "a"); (30%Q, "b")]%string ->
                 (t + 60 <= 62)%Q).
  { intros t [E|[E|[E|[E|[]]]]]; inversion E; subst; discriminate. }
  split; [exact H1|]. split; [exact Hold|].
  exact (proj1 (quota_returns_after_window 1 60 _ "a" 62 H1 Hold)).
Defined.

(** With a quota of 0 or less nothing is ever allowed, whatever the
    limiter holds and whenever the calls are made. *)
Theorem no_quota_refuses_all (calls : list (Q * string)) :
  forall l : RateLimiter,
    _max l <= 0 ->
    snd (run calls l) = repeat false (length calls).
Proof.
  induction calls as [|[now k] rest IH]; intros l Hmx; [reflexivity|].
  cbn [run length repeat]. destruct (check_config now k l) as [Hm _].
  pose proof (check_window_step now k l) as Hc.
  destruct (check now k l) as [l1 r]. cbn [fst] in *.
  specialize (IH l1 ltac:(lia)). destruct (run rest l1) as [l2 rs].
  cbn [snd] in *. rewrite IH. f_equal.
  injection Hc as _ ->. unfold window_step.
  destruct (_max l <=? _) eqn:E; [reflexivity|]. apply Z.leb_gt in E. lia.
Qed.

Lemma no_quota_refuses_all_witness :
  _max (__init__ 0 60) <= 0
  /\ snd (run [(0%Q, "a"); (100%Q, "a"); (200%Q, "b")]%string (__init__ 0 60))
     = [false; false; false].
Proof.
  assert (H : _max (__init__ 0 60) <= 0) by (cbn; lia).
  split; [exact H|].
  exact (no_quota_refuses_all [(0%Q, "a"); (100%Q, "a"); (200%Q, "b")]%string
           (__init__ 0 60) H).
Defined.


(** *** A burst *)

Lemma filter_keeps_all (cut : Q) (ts : list Q) :
  Forall (fun e => (cut < e)%Q) ts ->
  List.filter (fun t => Qgt_bool t cut) ts = ts.
Proof.
  induction 1 as [|e ts He _ IH]; [reflexivity|]. cbn.
  apply Qgt_bool_iff in He. now rewrite He, IH.
Qed.

Lemma window_run_burst (mx : Z) (w : Q) (times : list Q) :
  forall found : list Q,
    (forall t e, In t times -> In e found -> (t - w < e)%Q) ->
    (forall t t', In t times -> In t' times -> (t - w < t')%Q) ->
    window_run mx w times found
    = repeat true (Nat.min (length times)
                     (Z.to_nat (mx - Z.of_nat (length found))))
      ++ repeat false (length times
                       - Z.to_nat (mx - Z.of_nat (length found))).
Proof.
  induction times as [|now rest IH]; intros found Hf Ht; [reflexivity|].
  cbn [window_run]. unfold window_step.
  rewrite filter_keeps_all.
  2:{ apply List.Forall_forall. intros e He. apply Hf; [now left|exact He]. }
  destruct (mx <=? Z.of_nat (length found)) eqn:E.
  - apply Z.leb_le in E.
    rewrite IH; [|intros; apply Hf; auto; now right
                 |intros; apply Ht; now right].
    replace (Z.to_nat (mx - Z.of_nat (length found))) with 0%nat by lia.
    cbn [length]. rewrite !Nat.min_0_r, !Nat.sub_0_r. reflexivity.
  - apply Z.leb_gt in E.
    rewrite IH.
    2:{ intros t e Hin He. apply in_app_or in He as [He|[<-|[]]].
        - apply Hf; auto. now right.
        - apply Ht; [now right|now left]. }
    2:{ intros; apply Ht; now right. }
    rewrite length_app. cbn [length].
    replace (Z.to_nat (mx - Z.of_nat (length found)))
      with (S (Z.to_nat (mx - Z.of_nat (length found + 1)))) by lia.
    reflexivity.
Qed.




End LimiterFacts.

(** ** The retry loop of the client *)

Module ClientFacts.
Import Breaker Client.

Lemma count_app (p : Event -> bool) (tr tr' : list Event) :
  count p (tr ++ tr') = count p tr + count p tr'.
Proof. unfold count. rewrite List.filter_app, length_app. lia. Qed.

(** [_request_with_retry] and [get_text] are the shared body at their
    decoders. *)
Lemma _request_with_retry_execute {JSON : Type}
    (json_loads : string -> option JSON) (self : AzureDevOpsClient)
    (s : Settings) (up : Upstream) (g : option CircuitBreaker) (now : Q) :
  _request_with_retry json_loads self s up g now
  = execute (json json_loads) self up (fst (_get_circuit_breaker s g)) now.
Proof. reflexivity. Qed.

Lemma get_text_execute (self : AzureDevOpsClient) (s : Settings)
    (up : Upstream) (g : option CircuitBreaker) (now : Q) :
  get_text self s up g now
  = execute (fun resp => Return (text resp)) self up
      (fst (_get_circuit_breaker s g)) now.
Proof. reflexivity. Qed.

Section Loop.

Context {A : Type}.
Variable decode : Response -> Result A.
Variable self : AzureDevOpsClient.
Variable up : Upstream.

Lemma finish_world (r : Response) (w : World) :
  snd (finish decode r w) = w.
Proof. unfold finish. destruct (raise_for_status r); reflexivity. Qed.

(** The events the loop adds: no breaker check, at most one request per
    value of the range, one sleep fewer, and at most one outcome. *)
Lemma attempt_loop_events (fuel : nat) :
  forall (attempt : Z) (resp : option Response) (w : World),
    exists evs : list Event,
      trace (snd (attempt_loop decode self up fuel attempt resp w))
      = trace w ++ evs
      /\ count is_allow evs = 0
      /\ count is_request evs <= Z.of_nat fuel
      /\ (attempt + Z.of_nat fuel = _retry_attempts self + 1 ->
          count is_sleep evs + 1 <= Z.max 1 (Z.of_nat fuel))
      /\ count is_outcome evs <= 1.
Proof.
  induction fuel as [|fuel IH]; intros attempt resp w.
  - exists [ERecordFailure]. cbn [attempt_loop].
    split; [|unfold count; cbn; repeat split; lia].
    destruct resp; [rewrite finish_world|]; reflexivity.
  - cbn [attempt_loop].
    destruct (exchange up attempt) as [r|].
    2:{ exists [ERequest attempt]. unfold count; cbn. repeat split; lia. }
    destruct (retryable (status_code r) && (attempt <? _retry_attempts self))
      eqn:Hretry.
    + apply andb_true_iff in Hretry as [_ Hlt]. apply Z.ltb_lt in Hlt.
      destruct (retry_after self attempt r (uniform up attempt)) as [d|e].
      2:{ exists [ERequest attempt]. unfold count; cbn. repeat split; lia. }
      unfold sleep. destruct (Qlt_bool d 0).
      { exists [ERequest attempt]. unfold count; cbn. repeat split; lia. }
      match goal with |- context [attempt_loop _ _ _ fuel ?a ?r ?w1] =>
        destruct (IH a r w1) as (evs & Htr & Hal & Hrq & Hsl & Hout)
      end.
      exists ([ERequest attempt; ESleep d] ++ evs).
      rewrite Htr. cbn [trace advance emit]. rewrite <- !app_assoc.
      split; [reflexivity|]. rewrite !count_app.
      change (count is_allow [ERequest attempt; ESleep d]) with 0.
      change (count is_request [ERequest attempt; ESleep d]) with 1.
      change (count is_sleep [ERequest attempt; ESleep d]) with 1.
      change (count is_outcome [ERequest attempt; ESleep d]) with 0.
      repeat split; lia.
    + destruct (500 <=? status_code r); rewrite finish_world.
      * exists [ERequest attempt; ERecordFailure]. unfold count; cbn.
        rewrite <- app_assoc. repeat split; lia.
      * exists [ERequest attempt; ERecordSuccess]. unfold count; cbn.
        rewrite <- app_assoc. repeat split; lia.
Qed.

End Loop.

(** *** The breaker check of a call *)

Lemma execute_cases {A : Type} (decode : Response -> Result A)
    (self : AzureDevOpsClient) (up : Upstream) (b : CircuitBreaker)
    (now : Q) :
  execute decode self up b now
  = if snd (allow_request now b)
    then attempt_loop decode self up (Z.to_nat (_retry_attempts self)) 1 None
           (mkWorld (fst (allow_request now b)) now [EAllowRequest true])
    else (Raise ADOUnavailableError,
          mkWorld (fst (allow_request now b)) now [EAllowRequest false]).
Proof.
  unfold execute, cb_allow_request. cbn [cb clock trace].
  destruct (allow_request now b) as [b' [|]]; reflexivity.
Qed.

Lemma allow_request_denied (now : Q) (b : CircuitBreaker) :
  snd (allow_request now b) = false -> fst (allow_request now b) = b.
Proof.
  unfold allow_request.
  destruct (BreakerFacts.maybe_transition_cases now b) as [->|[_ ->]];
    [|discriminate].
  destruct (_state b); [discriminate|reflexivity|discriminate].
Qed.

(** C6: a call consults [allow_request] once, as its first action and
    with the clock reading of its start: the trace of the call is that
    check followed by events that are not checks. If the check returns
    false, the call raises [ADOUnavailableError], the check is its only
    event (no request, no sleep, no recorded outcome) and the breaker is
    left as it was. *)
Theorem breaker_checked_once {A : Type} (decode : Response -> Result A)
    (self : AzureDevOpsClient) (up : Upstream) (b : CircuitBreaker)
    (now : Q) :
  let out := execute decode self up b now in
  let ok := snd (allow_request now b) in
  (exists evs : list Event,
     trace (snd out) = EAllowRequest ok :: evs /\ count is_allow evs = 0)
  /\ count is_allow (trace (snd out)) = 1
  /\ (ok = false ->
      fst out = Raise ADOUnavailableError
      /\ trace (snd out) = [EAllowRequest false]
      /\ count is_request (trace (snd out)) = 0
      /\ count is_outcome (trace (snd out)) = 0
      /\ cb (snd out) = b
      /\ clock (snd out) = now).
Proof.
  intros out ok. subst out ok. rewrite execute_cases.
  pose proof (allow_request_denied now b) as Hden.
  destruct (snd (allow_request now b)).
  - match goal with |- context [attempt_loop _ _ _ ?f ?a ?r ?w] =>
      destruct (attempt_loop_events decode self up f a r w)
        as (evs & Htr & Hal & _)
    end.
    rewrite Htr. cbn [trace app].
    split; [exists evs; auto|]. split; [|discriminate].
    change (EAllowRequest true :: evs) with ([EAllowRequest true] ++ evs).
    rewrite count_app, Hal. reflexivity.
  - cbn. split; [exists []; auto|]. split; [reflexivity|].
    intros _. rewrite Hden by reflexivity. repeat split.
Qed.

(** A breaker opened at 0 s with a cooldown of 60 s refuses the call made
    at 30 s: nothing is sent and nothing is recorded. *)
Lemma breaker_checked_once_witness :
  let b := record_failure 0 (__init__ 1 60 1) in
  let self := get_devops_client "org" default_settings in
  let up := mkUpstream (fun _ => Reply (mkResponse 200 Absent "ok"))
              (fun _ => 0%Q) (fun _ => 0%Q) in
  let out := get_text self default_settings up (Some b) 30 in
  snd (allow_request 30 b) = false
  /\ fst out = Raise ADOUnavailableError
  /\ trace (snd out) = [EAllowRequest false]
  /\ count is_request (trace (snd out)) = 0
  /\ count is_outcome (trace (snd out)) = 0
  /\ cb (snd out) = b
  /\ clock (snd out) = 30%Q.
Proof.
  intros b self up out.
  destruct (breaker_checked_once (fun resp => Return (text resp)) self up b 30)
    as (_ & _ & H).
  split; [reflexivity|]. apply H. reflexivity.
Defined.

(** *** Requests and sleeps of a call *)

Lemma Qlt_bool_nonneg (d : Q) : (0 <= d)%Q -> Qlt_bool d 0 = false.
Proof. intros H. unfold Qlt_bool. now rewrite Qle_bool_true. Qed.



(** With [_retry_attempts <= 0] the range is empty: an admitted call sends
    nothing, runs the lines after the loop, which record a failure, and
    stops on the unbound [resp]. *)
Lemma no_attempts_configured {A : Type} (decode : Response -> Result A)
    (self : AzureDevOpsClient) (up : Upstream) (b : CircuitBreaker)
    (now : Q) :
  _retry_attempts self <= 0 ->
  snd (allow_request now b) = true ->
  execute decode self up b now
  = (Raise UnboundLocalError,
     cb_record_failure
       (mkWorld (fst (allow_request now b)) now [EAllowRequest true])).
Proof.
  intros HN Hok. rewrite execute_cases, Hok.
  replace (Z.to_nat (_retry_attempts self)) with 0%nat by lia. reflexivity.
Qed.

(** *** The terminal attempt *)

Section Terminal.

Context {A : Type}.
Variable decode : Response -> Result A.
Variable self : AzureDevOpsClient.
Variable up : Upstream.

Lemma retry_after_raises (attempt : Z) (r : Response) (u : Q)
    (e : Exception) :
  retry_after self attempt r u = Raise e -> e = ValueError.
Proof.
  unfold retry_after, float_retry_after.
  destruct (retry_after_header r) as [|q|]; try destruct (Qeq_bool _ 0);
    intros H; now inversion H.
Qed.

Lemma outcomes_snoc (tr : list Event) (e : Event) :
  is_outcome e = false ->
  List.filter is_outcome (tr ++ [e]) = List.filter is_outcome tr.
Proof.
  intros He. rewrite List.filter_app. cbn. rewrite He. apply app_nil_r.
Qed.

(** One turn of the loop. *)
Lemma attempt_loop_step (fuel : nat) (attempt : Z) (resp : option Response)
    (w : World) :
  attempt_loop decode self up (S fuel) attempt resp w
  = let w := advance (latency up attempt) (emit (ERequest attempt) w) in
    match exchange up attempt with
    | NoReply => (Raise RequestException, w)
    | Reply r =>
        if retryable (status_code r) && (attempt <? _retry_attempts self)
        then
          match retry_after self attempt r (uniform up attempt) with
          | Raise e => (Raise e, w)
          | Return d =>
              match sleep d w with
              | (Raise e, w) => (Raise e, w)
              | (Return _, w) =>
                  attempt_loop decode self up fuel (attempt + 1) (Some r) w
              end
          end
        else
          let w := if 500 <=? status_code r
                   then cb_record_failure w
                   else cb_record_success w in
          finish decode r w
    end.
Proof. reflexivity. Qed.

(** An attempt that is not retried ends the call. *)
Lemma terminal_iteration (fuel : nat) (attempt : Z)
    (resp : option Response) (w : World) (r : Response) :
  exchange up attempt = Reply r ->
  retryable (status_code r) = false \/ _retry_attempts self <= attempt ->
  let w1 := advance (latency up attempt) (emit (ERequest attempt) w) in
  attempt_loop decode self up (S fuel) attempt resp w
  = (if (400 <=? status_code r) && (status_code r <? 600)
     then Raise (HTTPError r) else decode r,
     if 500 <=? status_code r
     then cb_record_failure w1 else cb_record_success w1).
Proof.
  intros Hx Hterm w1. rewrite attempt_loop_step. cbn zeta. rewrite Hx.
  assert (Hno : retryable (status_code r)
                && (attempt <? _retry_attempts self) = false).
  { destruct Hterm as [->|Hle]; [reflexivity|].
    apply andb_false_iff. right. now apply Z.ltb_ge. }
  rewrite Hno. unfold finish, raise_for_status. fold w1.
  destruct ((400 <=? status_code r) && (status_code r <? 600)); reflexivity.
Qed.

(** How the loop ends when the range still has values: at a terminal
    attempt, or by an exception that records nothing. *)
Lemma attempt_loop_end (fuel : nat) :
  forall (attempt : Z) (resp : option Response) (w : World),
    attempt + Z.of_nat fuel = _retry_attempts self ->
    let out := attempt_loop decode self up (S fuel) attempt resp w in
    (exists (a : Z) (r : Response) (w1 : World),
        attempt <= a <= _retry_attempts self
        /\ exchange up a = Reply r
        /\ (retryable (status_code r) = false \/ _retry_attempts self <= a)
        /\ List.filter is_outcome (trace w1) = List.filter is_outcome (trace w)
        /\ out = (if (400 <=? status_code r) && (status_code r <? 600)
                  then Raise (HTTPError r) else decode r,
                  if 500 <=? status_code r
                  then cb_record_failure w1 else cb_record_success w1))
    \/ ((fst out = Raise RequestException \/ fst out = Raise ValueError)
        /\ List.filter is_outcome (trace (snd out))
           = List.filter is_outcome (trace w)).
Proof.
  induction fuel as [|fuel IH]; intros attempt resp w Hfuel out.
  - destruct (exchange up attempt) as [r|] eqn:Hx.
    + left. exists attempt, r, (advance (latency up attempt)
                                  (emit (ERequest attempt) w)).
      split; [lia|]. split; [exact Hx|]. split; [right; lia|].
      split; [now apply outcomes_snoc|].
      apply terminal_iteration; [exact Hx|right; lia].
    + right. subst out. rewrite attempt_loop_step. cbn zeta. rewrite Hx. cbn.
      split; [auto|now apply outcomes_snoc].
  - destruct (exchange up attempt) as [r|] eqn:Hx.
    2:{ right. subst out. rewrite attempt_loop_step. cbn zeta. rewrite Hx.
        cbn. split; [auto|now apply outcomes_snoc]. }
    destruct (retryable (status_code r)) eqn:Hr.
    2:{ left. exists attempt, r, (advance (latency up attempt)
                                    (emit (ERequest attempt) w)).
        split; [lia|]. split; [exact Hx|]. split; [left; exact Hr|].
        split; [now apply outcomes_snoc|].
        apply terminal_iteration; [exact Hx|left; exact Hr]. }
    subst out. rewrite attempt_loop_step. cbn zeta. rewrite Hx, Hr.
    assert (Hlt : (attempt <? _retry_attempts self) = true)
      by (apply Z.ltb_lt; lia).
    rewrite Hlt. cbn [andb].
    destruct (retry_after self attempt r (uniform up attempt)) as [d|e] eqn:Hd.
    2:{ right. apply retry_after_raises in Hd as ->. cbn.
        split; [auto|now apply outcomes_snoc]. }
    unfold sleep. destruct (Qlt_bool d 0).
    { right. cbn. split; [auto|now apply outcomes_snoc]. }
    match goal with |- context [attempt_loop _ _ _ (S fuel) ?a ?r ?w1] =>
      destruct (IH a r w1 ltac:(lia)) as [(a' & r' & w' & Ha & Hx' & Ht & Hf & Ho)
                                         |[Hraise Hf]];
      assert (Hw1 : List.filter is_outcome (trace w1)
                    = List.filter is_outcome (trace w))
        by (cbn; now rewrite !outcomes_snoc)
    end.
    + left. exists a', r', w'. split; [lia|]. split; [exact Hx'|].
      split; [exact Ht|]. split; [congruence|exact Ho].
    + right. split; [exact Hraise|congruence].
Qed.

End Terminal.




(** *** The delay before a retry *)

Section Delay.

Variable self : AzureDevOpsClient.

(** A header that parses to a positive number is the delay. *)
Lemma retry_after_positive (attempt : Z) (r : Response) (u q : Q) :
  retry_after_header r = Seconds q -> (0 < q)%Q ->
  retry_after self attempt r u = Return q.
Proof.
  intros Hh Hq. unfold retry_after, float_retry_after. rewrite Hh.
  destruct (Qeq_bool q 0) eqn:E; [|reflexivity].
  apply Qeq_bool_iff in E. lra.
Qed.

(** Without the header, or with one that parses to zero, the delay is
    [_retry_delay * 2 ** (attempt - 1)] plus the jitter. *)
Lemma retry_after_absent (attempt : Z) (r : Response) (u : Q) :
  retry_after_header r = Absent ->
  retry_after self attempt r u
  = Return (_retry_delay self * inject_Z (2 ^ (attempt - 1)) + u)%Q.
Proof.
  intros Hh. unfold retry_after, float_retry_after. now rewrite Hh.
Qed.

Lemma retry_after_zero (attempt : Z) (r : Response) (u q : Q) :
  retry_after_header r = Seconds q -> (q == 0)%Q ->
  retry_after self attempt r u
  = Return (_retry_delay self * inject_Z (2 ^ (attempt - 1)) + u)%Q.
Proof.
  intros Hh Hq. unfold retry_after, float_retry_after. rewrite Hh.
  apply Qeq_bool_iff in Hq. now rewrite Hq.
Qed.

(** A retried attempt sleeps for the delay, then moves to the next. *)
Lemma retry_iteration {A : Type} (decode : Response -> Result A)
    (up : Upstream) (fuel : nat) (attempt : Z) (resp : option Response)
    (w : World) (r : Response) (d : Q) :
  exchange up attempt = Reply r ->
  retryable (status_code r) = true ->
  attempt < _retry_attempts self ->
  retry_after self attempt r (uniform up attempt) = Return d ->
  (0 <= d)%Q ->
  attempt_loop decode self up (S fuel) attempt resp w
  = attempt_loop decode self up fuel (attempt + 1) (Some r)
      (advance d (emit (ESleep d)
         (advance (latency up attempt) (emit (ERequest attempt) w)))).
Proof.
  intros Hx Hr Hlt Hd Hpos. rewrite attempt_loop_step. cbn zeta.
  apply Z.ltb_lt in Hlt. rewrite Hx, Hr, Hlt. cbn [andb]. rewrite Hd.
  unfold sleep. now rewrite Qlt_bool_nonneg.
Qed.

End Delay.

(** A 429 with [Retry-After: 10] on the first of 3 attempts: the sleep is
    10 s, not the 2.5 s of the backoff formula. *)
Lemma retry_after_ten_seconds :
  let self := get_devops_client "org" default_settings in
  let up := mkUpstream
              (fun a => Reply (if a =? 1 then mkResponse 429 (Seconds 10) ""
                               else mkResponse 200 Absent "log"))
              (fun _ => 1%Q) (fun _ => (1 # 2)%Q) in
  let out := get_text self default_settings up None 0 in
  fst out = Return "log"%string
  /\ trace (snd out)
     = [EAllowRequest true; ERequest 1; ESleep 10; ERequest 2; ERecordSuccess]
  /\ clock (snd out) = (0 + 1 + 10 + 1)%Q.
Proof. cbn zeta. repeat split. Qed.

(** C4 fails on a header that is present but not positive. A 429 with
    [Retry-After: -1] on the first of 3 attempts: [float] returns [-1.0],
    which is truthy, so the backoff formula (here 2.5 s) is not used;
    [time.sleep(-1.0)] raises [ValueError], and the call ends after one
    request with nothing recorded on the breaker. A header [float] cannot
    parse (an HTTP-date) ends the call with [ValueError] in the same way. *)
Theorem retry_after_not_positive :
  let self := get_devops_client "org" default_settings in
  let neg := mkResponse 429 (Seconds (-1)) "" in
  let date := mkResponse 429 Unparsable "" in
  let up_of r := mkUpstream (fun _ => Reply r) (fun _ => 1%Q)
                   (fun _ => (1 # 2)%Q) in
  retryable (status_code neg) = true
  /\ 1 < _retry_attempts self
  /\ retry_after self 1 neg (1 # 2) = Return (-1)%Q
  /\ (_retry_delay self * inject_Z (2 ^ (1 - 1)) + (1 # 2) == 5 # 2)%Q
  /\ get_text self default_settings (up_of neg) None 0
     = (Raise ValueError,
        mkWorld (__init__ 5 60 1) (0 + 1)
          [EAllowRequest true; ERequest 1])
  /\ retry_after self 1 date (1 # 2) = Raise ValueError
  /\ get_text self default_settings (up_of date) None 0
     = (Raise ValueError,
        mkWorld (__init__ 5 60 1) (0 + 1)
          [EAllowRequest true; ERequest 1]).
Proof. cbn zeta. repeat split. Qed.

(** *** What a call does to the breaker *)

Section BreakerEffect.

Context {A : Type}.
Variable decode : Response -> Result A.
Variable self : AzureDevOpsClient.

(** The loop, with values left in the range, ends at a terminal response
    with one outcome recorded on the breaker as it was, or by an exception
    that leaves the breaker alone. *)
Lemma attempt_loop_breaker (up : Upstream) (fuel : nat) :
  forall (attempt : Z) (resp : option Response) (w : World),
    attempt + Z.of_nat fuel = _retry_attempts self ->
    let out := attempt_loop decode self up (S fuel) attempt resp w in
    (exists (r : Response) (t : Q),
        fst out = (if (400 <=? status_code r) && (status_code r <? 600)
                   then Raise (HTTPError r) else decode r)
        /\ cb (snd out) = (if 500 <=? status_code r
                           then record_failure t (cb w)
                           else record_success (cb w)))
    \/ ((fst out = Raise RequestException \/ fst out = Raise ValueError)
        /\ cb (snd out) = cb w).
Proof.
  induction fuel as [|fuel IH]; intros attempt resp w Hfuel out.
  - destruct (exchange up attempt) as [r|] eqn:Hx.
    + left. exists r, (clock w + latency up attempt)%Q. subst out.
      rewrite (terminal_iteration decode self up 0 attempt resp w r Hx)
        by (right; lia).
      cbn [fst snd]. split; [reflexivity|].
      destruct (500 <=? status_code r); reflexivity.
    + right. subst out. rewrite attempt_loop_step. cbn zeta. rewrite Hx.
      cbn. auto.
  - destruct (exchange up attempt) as [r|] eqn:Hx.
    2:{ right. subst out. rewrite attempt_loop_step. cbn zeta. rewrite Hx.
        cbn. auto. }
    destruct (retryable (status_code r)) eqn:Hr.
    2:{ left. exists r, (clock w + latency up attempt)%Q. subst out.
        rewrite (terminal_iteration decode self up (S fuel) attempt resp w r Hx)
          by (left; exact Hr).
        cbn [fst snd]. split; [reflexivity|].
        destruct (500 <=? status_code r); reflexivity. }
    subst out. rewrite attempt_loop_step. cbn zeta. rewrite Hx, Hr.
    assert (Hlt : (attempt <? _retry_attempts self) = true)
      by (apply Z.ltb_lt; lia).
    rewrite Hlt. cbn [andb].
    destruct (retry_after self attempt r (uniform up attempt)) as [d|e] eqn:Hd.
    2:{ right. apply retry_after_raises in Hd as ->. cbn. auto. }
    unfold sleep. destruct (Qlt_bool d 0).
    { right. cbn. auto. }
    match goal with |- context [attempt_loop _ _ _ (S fuel) ?a ?r ?w1] =>
      destruct (IH a r w1 ltac:(lia)) as [(r' & t & Hres & Hcb)|[Hraise Hcb]]
    end.
    + left. exists r', t. split; [exact Hres|exact Hcb].
    + right. split; [exact Hraise|exact Hcb].
Qed.

(** A closed or half-open breaker admits the call and is not changed by
    the check. *)
Lemma allow_request_not_open (now : Q) (b : CircuitBreaker) :
  _state b <> OPEN -> allow_request now b = (b, true).
Proof.
  intros Hst. unfold allow_request, _maybe_transition_to_half_open.
  destruct (_state b) eqn:E; try congruence; rewrite E; reflexivity.
Qed.


End BreakerEffect.



(** *** Calls one after the other *)

Section Calls.

Context {A : Type}.
Variable decode : Response -> Result A.
Variable self : AzureDevOpsClient.

(** The decoders of the client raise no [HTTPError] of their own. *)
Hypothesis decode_no_http_error :
  forall r r' : Response, decode r <> Raise (HTTPError r').

(** A call on a closed breaker that fails on a server error has recorded
    one failure on it. *)
Lemma server_error_recorded (up : Upstream) (b : CircuitBreaker) (now : Q) :
  1 <= _retry_attempts self ->
  _state b = CLOSED ->
  server_error (fst (execute decode self up b now)) ->
  exists t : Q, cb (snd (execute decode self up b now)) = record_failure t b.
Proof.
  intros HN Hst (r0 & Hres & H500).
  pose proof (allow_request_not_open now b ltac:(congruence)) as Hal.
  revert Hres. rewrite execute_cases, Hal. cbn [fst snd]. intros Hres.
  destruct (Z.to_nat (_retry_attempts self)) as [|fuel] eqn:Hfuel; [lia|].
  match type of Hres with context [attempt_loop _ _ _ _ _ _ ?w0] =>
    destruct (attempt_loop_breaker decode self up fuel 1 None w0 ltac:(lia))
      as [(r & t & Hres' & Hcb)|[Hexc _]]
  end.
  2:{ rewrite Hres in Hexc. destruct Hexc as [H|H]; discriminate. }
  - cbn [cb] in Hcb. rewrite Hres in Hres'.
    destruct ((400 <=? status_code r) && (status_code r <? 600)).
    + injection Hres' as ->. exists t.
      apply Z.leb_le in H500. now rewrite H500 in Hcb.
    + symmetry in Hres'. now apply decode_no_http_error in Hres'.
Qed.

Lemma run_calls_closed (calls : list (Upstream * Q)) :
  forall b : CircuitBreaker,
    1 <= _retry_attempts self ->
    _state b = CLOSED ->
    _failure_count b + Z.of_nat (length calls) = _failure_threshold b ->
    calls <> [] ->
    Forall server_error (snd (run_calls decode self calls b)) ->
    exists t : Q,
      fst (run_calls decode self calls b)
      = set_opened_at t
          (set_state OPEN (set_failure_count (_failure_threshold b) b)).
Proof.
  induction calls as [|[up now] rest IH]; intros b HN Hst Hlen Hne Hall;
    [congruence|].
  cbn [run_calls] in *.
  pose proof (server_error_recorded up b now HN Hst) as Hrec.
  destruct (execute decode self up b now) as [res w]. cbn [fst snd] in *.
  destruct (run_calls decode self rest (cb w)) as [b' rs] eqn:Hrest.
  cbn [fst snd] in *. inversion Hall as [|? ? Hres Hall']; subst.
  destruct (Hrec Hres) as [t Hcb].
  destruct b as [F cd sth st fc sc oa]. cbn in Hst, Hlen. subst st.
  unfold record_failure in Hcb; cbn in Hcb.
  destruct rest as [|c rest'].
  - cbn in Hrest. injection Hrest as <- _. cbn [length] in Hlen.
    destruct (F <=? fc + 1) eqn:E; [|apply Z.leb_gt in E; lia].
    exists t. rewrite Hcb. unfold set_opened_at, set_state, set_failure_count.
    cbn. f_equal. lia.
  - cbn [length] in Hlen.
    destruct (F <=? fc + 1) eqn:E; [apply Z.leb_le in E; lia|].
    specialize (IH (cb w) HN). rewrite Hrest, Hcb in IH. cbn in IH.
    destruct IH as [t' Ht']; [reflexivity|lia|discriminate|exact Hall'|].
    exists t'. rewrite Ht'. reflexivity.
Qed.

End Calls.


(** Neither [resp.json()] nor [resp.text] raises [HTTPError]. *)
Lemma json_no_http_error {JSON : Type} (json_loads : string -> option JSON)
    (r r' : Response) :
  json json_loads r <> Raise (HTTPError r').
Proof. unfold json. destruct (json_loads (text r)); discriminate. Qed.




(** *** Time spent sleeping *)

Lemma total_sleep_app (tr tr' : list Event) :
  (total_sleep (tr ++ tr') == total_sleep tr + total_sleep tr')%Q.
Proof.
  induction tr as [|e tr IH]; cbn; [lra|]. destruct e; cbn; lra.
Qed.

Lemma inject_pow2_pos (n : Z) : (0 <= inject_Z (2 ^ n))%Q.
Proof.
  change 0%Q with (inject_Z 0). rewrite <- Zle_Qle.
  apply Z.pow_nonneg. lia.
Qed.

Lemma backoff_sum_nonneg (base : Q) (n : nat) :
  (0 <= base)%Q -> forall a : Z, (0 <= backoff_sum base a n)%Q.
Proof.
  intros Hb. induction n as [|n IH]; intros a; cbn; [lra|].
  specialize (IH (a + 1)).
  pose proof (Qmult_le_0_compat _ _ Hb (inject_pow2_pos (a - 1))). lra.
Qed.

(** The closed form of the sum. *)
Lemma backoff_sum_closed (base : Q) (n : nat) :
  forall a : Z,
    1 <= a ->
    (backoff_sum base a n
     == base * inject_Z (2 ^ (a - 1)) * (inject_Z (2 ^ Z.of_nat n) - 1)
        + inject_Z (Z.of_nat n))%Q.
Proof.
  induction n as [|n IH]; intros a Ha.
  - cbn [backoff_sum]. change (2 ^ Z.of_nat 0) with 1.
    change (inject_Z 1) with 1%Q. change (inject_Z (Z.of_nat 0)) with 0%Q.
    ring.
  - cbn [backoff_sum]. rewrite (IH (a + 1)) by lia.
    replace (a + 1 - 1) with (Z.succ (a - 1)) by lia.
    rewrite Z.pow_succ_r by lia.
    rewrite Nat2Z.inj_succ, Z.pow_succ_r by lia.
    rewrite !inject_Z_mult. unfold Z.succ. rewrite inject_Z_plus.
    change (inject_Z 2) with 2%Q. change (inject_Z 1) with 1%Q. ring.
Qed.

Section Backoff.

Context {A : Type}.
Variable decode : Response -> Result A.
Variable self : AzureDevOpsClient.
Variable up : Upstream.

Hypothesis base_nonneg : (0 <= _retry_delay self)%Q.
Hypothesis jitter_unit : forall a : Z, (0 <= uniform up a <= 1)%Q.
Hypothesis no_retry_after :
  forall (a : Z) (r : Response),
    exchange up a = Reply r -> retry_after_header r = Absent.

Lemma attempt_loop_sleep (fuel : nat) :
  forall (attempt : Z) (resp : option Response) (w : World),
    attempt + Z.of_nat fuel = _retry_attempts self ->
    exists evs : list Event,
      trace (snd (attempt_loop decode self up (S fuel) attempt resp w))
      = trace w ++ evs
      /\ (total_sleep evs <= backoff_sum (_retry_delay self) attempt fuel)%Q.
Proof.
  pose proof (backoff_sum_nonneg (_retry_delay self)) as Hnn.
  induction fuel as [|fuel IH]; intros attempt resp w Hfuel;
    rewrite attempt_loop_step; cbn zeta.
  - destruct (exchange up attempt) as [r|] eqn:Hx.
    2:{ exists [ERequest attempt]. cbn. split; [reflexivity|lra]. }
    assert (Hlt : (attempt <? _retry_attempts self) = false)
      by (apply Z.ltb_ge; lia).
    rewrite Hlt, andb_false_r.
    destruct (500 <=? status_code r); rewrite finish_world.
    + exists [ERequest attempt; ERecordFailure]. cbn.
      rewrite <- app_assoc. split; [reflexivity|lra].
    + exists [ERequest attempt; ERecordSuccess]. cbn.
      rewrite <- app_assoc. split; [reflexivity|lra].
  - pose proof (Hnn (S fuel) base_nonneg attempt) as Hn1.
    destruct (exchange up attempt) as [r|] eqn:Hx.
    2:{ exists [ERequest attempt]. cbn [trace advance emit total_sleep snd].
        split; [reflexivity|]. apply Hn1. }
    destruct (retryable (status_code r) && (attempt <? _retry_attempts self)).
    + rewrite (retry_after_absent self attempt r _ (no_retry_after _ _ Hx)).
      set (d := (_retry_delay self * inject_Z (2 ^ (attempt - 1))
                 + uniform up attempt)%Q).
      unfold sleep. destruct (Qlt_bool d 0).
      { exists [ERequest attempt]. cbn [trace advance emit total_sleep snd].
        split; [reflexivity|]. apply Hn1. }
      match goal with |- context [attempt_loop _ _ _ (S fuel) ?a ?r ?w1] =>
        destruct (IH a r w1 ltac:(lia)) as (evs & Htr & Hsl)
      end.
      exists ([ERequest attempt; ESleep d] ++ evs). rewrite Htr.
      cbn [trace advance emit]. rewrite <- !app_assoc.
      split; [reflexivity|]. cbn [app total_sleep backoff_sum].
      subst d. pose proof (jitter_unit attempt). lra.
    + destruct (500 <=? status_code r); rewrite finish_world.
      * exists [ERequest attempt; ERecordFailure].
        cbn [trace advance emit cb_record_failure total_sleep].
        rewrite <- app_assoc. split; [reflexivity|]. apply Hn1.
      * exists [ERequest attempt; ERecordSuccess].
        cbn [trace advance emit cb_record_success total_sleep].
        rewrite <- app_assoc. split; [reflexivity|]. apply Hn1.
Qed.

End Backoff.


(** How long a call can sleep: when the service sends no [Retry-After]
    header, the base delay is nonnegative and the jitter lies in [0, 1], a
    call with [_retry_attempts = N >= 1] sleeps in total at most
    [_retry_delay * (2 ** (N - 1) - 1) + (N - 1)] seconds, whatever the
    replies are (8 s with the default 3 attempts and 2 s). *)
Theorem total_backoff_bounded {A : Type} (decode : Response -> Result A)
    (self : AzureDevOpsClient) (up : Upstream) (b : CircuitBreaker)
    (now : Q) :
  (0 <= _retry_delay self)%Q ->
  (forall a : Z, (0 <= uniform up a <= 1)%Q) ->
  (forall (a : Z) (r : Response),
      exchange up a = Reply r -> retry_after_header r = Absent) ->
  1 <= _retry_attempts self ->
  (total_sleep (trace (snd (execute decode self up b now)))
   <= _retry_delay self * (inject_Z (2 ^ (_retry_attempts self - 1)) - 1)
      + inject_Z (_retry_attempts self - 1))%Q.
Proof.
  intros Hbase Hjit Hhdr HN.
  destruct (Z.to_nat (_retry_attempts self)) as [|fuel] eqn:Hfuel; [lia|].
  assert (Hf : Z.of_nat fuel = _retry_attempts self - 1) by lia.
  pose proof (backoff_sum_closed (_retry_delay self) fuel 1 ltac:(lia)) as Hcl.
  pose proof (backoff_sum_nonneg (_retry_delay self) fuel Hbase 1) as Hnn.
  change (2 ^ (1 - 1)) with 1 in Hcl. change (inject_Z 1) with 1%Q in Hcl.
  rewrite Hf in Hcl.
  rewrite execute_cases, Hfuel.
  destruct (snd (allow_request now b)).
  - match goal with |- context [attempt_loop _ _ _ _ _ _ ?w0] =>
      destruct (attempt_loop_sleep decode self up Hbase Hjit Hhdr fuel 1 None
                  w0 ltac:(lia)) as (evs & Htr & Hsl)
    end.
    rewrite Htr. cbn [trace]. rewrite total_sleep_app. cbn [total_sleep]. lra.
  - cbn. lra.
Qed.

(** Default settings, replies 503, 503, 200, jitter 1/2: 2.5 s + 4.5 s of
    sleep, within the bound of 8 s. *)
Lemma total_backoff_bounded_witness :
  let self := get_devops_client "org" default_settings in
  let up := mkUpstream
              (fun a => Reply (if a =? 3 then mkResponse 200 Absent "log"
                               else mkResponse 503 Absent "busy"))
              (fun _ => 1%Q) (fun _ => (1 # 2)%Q) in
  let out := get_text self default_settings up None 0 in
  (0 <= _retry_delay self)%Q
  /\ (forall a : Z, (0 <= uniform up a <= 1)%Q)
  /\ 1 <= _retry_attempts self
  /\ (total_sleep (trace (snd out)) == 7)%Q
  /\ (total_sleep (trace (snd out)) <= 8)%Q.
Proof.
  intros self up out.
  assert (Hbase : (0 <= _retry_delay self)%Q) by discriminate.
  assert (Hjit : forall a : Z, (0 <= uniform up a <= 1)%Q)
    by (intros a; split; discriminate).
  assert (Hhdr : forall (a : Z) (r : Response),
             exchange up a = Reply r -> retry_after_header r = Absent).
  { intros a r Hx. cbn in Hx. injection Hx as <-. destruct (a =? 3); reflexivity. }
  assert (HN : 1 <= _retry_attempts self) by (cbn; lia).
  pose proof (total_backoff_bounded (fun resp => Return (text resp)) self up
                (fst (_get_circuit_breaker default_settings None)) 0
                Hbase Hjit Hhdr HN) as H.
  split; [exact Hbase|]. split; [exact Hjit|]. split; [exact HN|].
  split; [reflexivity|]. exact H.
Defined.


(** *** The health report *)

(** The health report and the admission check agree: on a breaker that
    exists, [get_circuit_breaker_state] leaves it as [allow_request] at the
    same clock reading would (so a report made after the cooldown half-opens
    it), answers one of the three tokens, and answers "open" exactly when
    that [allow_request] would refuse; while no breaker exists it answers
    "closed" and creates none. *)
Theorem health_report_matches_admission (now : Q)
    (g : option CircuitBreaker) :
  let out := get_circuit_breaker_state now g in
  match g with
  | None => out = ("closed"%string, None)
  | Some b =>
      snd out = Some (fst (allow_request now b))
      /\ fst out = value (_state (fst (allow_request now b)))
      /\ (fst out = "open"%string <-> snd (allow_request now b) = false)
      /\ (fst out = "closed"%string \/ fst out = "open"%string
          \/ fst out = "half_open"%string)
      /\ allow_request now (fst (allow_request now b))
         = allow_request now b
  end.
Proof.
  destruct g as [b|]; [|reflexivity]. cbn.
  unfold state. rewrite BreakerFacts.fst_allow_request. cbn [fst snd].
  unfold allow_request.
  destruct (BreakerFacts.maybe_transition_cases now b) as [E|[Hst E]].
  - assert (E2 : _maybe_transition_to_half_open now
                   (_maybe_transition_to_half_open now b)
                 = _maybe_transition_to_half_open now b) by congruence.
    rewrite E2.
    destruct (_state (_maybe_transition_to_half_open now b)); cbn;
      repeat split; auto; discriminate.
  - rewrite E. cbn. repeat split; auto; discriminate.
Qed.


End ClientFacts.

(** ** Strings and the project settings *)

Module ConfigFacts.
Import Str Config App.

Lemma eqb_eq (s t : str) : Str.eqb s t = true <-> s = t.
Proof.
  revert t. induction s as [|c s IH]; intros [|d t]; cbn;
    try (split; [discriminate|congruence]); [tauto|].
  rewrite andb_true_iff, N.eqb_eq, IH. split; [intros [-> ->]|intros H];
    [reflexivity|now inversion H].
Qed.

(** *** strip *)

Lemma lstrip_starts_clean (s : str) : starts_clean (lstrip s) = true.
Proof.
  induction s as [|c s IH]; [reflexivity|]. cbn.
  destruct (isspace c) eqn:E; [exact IH|]. cbn. now rewrite E.
Qed.

Lemma lstrip_clean (s : str) : starts_clean s = true -> lstrip s = s.
Proof.
  destruct s as [|c s]; [reflexivity|]. cbn.
  now destruct (isspace c).
Qed.

Lemma lstrip_snoc (s : str) (c : N) :
  isspace c = false -> lstrip (s ++ [c]) = lstrip s ++ [c].
Proof.
  intros Hc. induction s as [|d s IH]; cbn; [now rewrite Hc|].
  now destruct (isspace d).
Qed.

Lemma lstrip_In (s : str) (c : N) : In c (lstrip s) -> In c s.
Proof.
  induction s as [|d s IH]; cbn; [tauto|].
  destruct (isspace d); [intros H; right; now apply IH|tauto].
Qed.

Lemma strip_In (s : str) (c : N) : In c (strip s) -> In c s.
Proof.
  unfold strip. intros H. apply in_rev in H. apply lstrip_In in H.
  apply in_rev in H. now apply lstrip_In.
Qed.

Lemma strip_stripped (s : str) : stripped (strip s) = true.
Proof.
  unfold stripped, strip. rewrite rev_involutive, lstrip_starts_clean.
  rewrite andb_true_r.
  pose proof (lstrip_starts_clean s) as Hl.
  destruct (lstrip s) as [|c t]; [reflexivity|]. cbn in Hl.
  apply negb_true_iff in Hl. cbn [rev].
  rewrite lstrip_snoc by exact Hl. rewrite rev_app_distr. cbn.
  now rewrite Hl.
Qed.

Lemma strip_id (s : str) : stripped s = true -> strip s = s.
Proof.
  unfold stripped, strip. intros H. apply andb_true_iff in H as [H1 H2].
  rewrite (lstrip_clean s H1), (lstrip_clean (rev s) H2).
  apply rev_involutive.
Qed.

(** *** split and join *)

Lemma split_nonempty (sep : N) (s : str) : split sep s <> [].
Proof.
  destruct s as [|c s]; cbn; [discriminate|].
  destruct (c =? sep)%N; [discriminate|].
  destruct (split sep s); discriminate.
Qed.

Lemma split_no_sep (sep : N) (s : str) :
  Forall (fun p => ~ In sep p) (split sep s).
Proof.
  induction s as [|c s IH]; cbn; [repeat constructor; tauto|].
  destruct (c =? sep)%N eqn:E; [constructor; [tauto|exact IH]|].
  apply N.eqb_neq in E.
  destruct (split sep s) as [|p ps]; [repeat constructor; cbn; intuition|].
  inversion IH as [|? ? Hp Hps]; subst.
  constructor; [cbn; intuition|exact Hps].
Qed.

Lemma split_piece (sep : N) (p rest : str) :
  ~ In sep p -> split sep (p ++ sep :: rest) = p :: split sep rest.
Proof.
  induction p as [|c p IH]; intros Hp; cbn.
  - now rewrite N.eqb_refl.
  - destruct (c =? sep)%N eqn:E;
      [apply N.eqb_eq in E; subst; cbn in Hp; tauto|].
    rewrite IH by (cbn in Hp; tauto). reflexivity.
Qed.

Lemma split_whole (sep : N) (p : str) : ~ In sep p -> split sep p = [p].
Proof.
  induction p as [|c p IH]; intros Hp; cbn; [reflexivity|].
  destruct (c =? sep)%N eqn:E;
    [apply N.eqb_eq in E; subst; cbn in Hp; tauto|].
  rewrite IH by (cbn in Hp; tauto). reflexivity.
Qed.

(** Joining pieces that hold no separator and splitting again gives the
    pieces back. *)
Lemma split_join (sep : N) (ps : list str) :
  ps <> [] -> Forall (fun p => ~ In sep p) ps ->
  split sep (join [sep] ps) = ps.
Proof.
  induction ps as [|p ps IH]; intros Hne Hall; [congruence|].
  inversion Hall as [|? ? Hp Hps]; subst.
  destruct ps as [|q ps]; [now apply split_whole|].
  change (join [sep] (p :: q :: ps)) with (p ++ sep :: join [sep] (q :: ps)).
  rewrite split_piece by exact Hp. f_equal. apply IH; [discriminate|exact Hps].
Qed.

(** *** The allowed projects *)

Lemma nonempty_true (s : str) : nonempty s = true <-> s <> [].
Proof. destruct s; cbn; split; congruence. Qed.

(** The entries read from the comma-separated setting. *)
Lemma listed_entries (s : ProjectSettings) (p : str) :
  In p (List.filter nonempty
          (map strip (split comma (azure_devops_projects s)))) ->
  p <> []
  /\ (exists piece, In piece (split comma (azure_devops_projects s))
                    /\ p = strip piece)
  /\ stripped p = true
  /\ ~ In comma p.
Proof.
  intros H. apply filter_In in H as [H Hne]. apply nonempty_true in Hne.
  apply in_map_iff in H as (piece & <- & Hin).
  split; [exact Hne|]. split; [now exists piece|].
  split; [apply strip_stripped|].
  intros Hc. apply strip_In in Hc.
  pose proof (split_no_sep comma (azure_devops_projects s)) as Hall.
  rewrite List.Forall_forall in Hall. now apply (Hall piece).
Qed.

(** What [allowed_projects] can hold: never an empty name; either the
    entries of the comma-separated setting, each the stripped form of one
    of its pieces, so without whitespace at either end and without a comma;
    or, when that setting yields no entry at all, the single project of
    [azure_devops_project], taken as it is. *)
Theorem allowed_projects_entries (s : ProjectSettings) (p : str) :
  In p (allowed_projects s) ->
  p <> []
  /\ (((exists piece, In piece (split comma (azure_devops_projects s))
                      /\ p = strip piece)
       /\ stripped p = true /\ ~ In comma p)
      \/ (azure_devops_project s = Some p
          /\ allowed_projects s = [p]
          /\ Forall (fun piece => strip piece = [])
               (split comma (azure_devops_projects s)))).
Proof.
  unfold allowed_projects.
  destruct (List.filter nonempty
              (map strip (split comma (azure_devops_projects s))))
    as [|q qs] eqn:E.
  - cbn [negb andb].
    destruct (azure_devops_project s) as [[|c t]|] eqn:Ep; cbn;
      try contradiction.
    intros [<-|[]]. split; [discriminate|]. right.
    split; [reflexivity|]. split; [reflexivity|].
    apply List.Forall_forall. intros piece Hin.
    destruct (strip piece) as [|d u] eqn:Es; [reflexivity|].
    assert (Hq : In (d :: u)
                   (List.filter nonempty
                      (map strip (split comma (azure_devops_projects s))))).
    { apply filter_In. split; [|reflexivity].
      apply in_map_iff. now exists piece. }
    rewrite E in Hq. contradiction.
  - cbn [negb andb]. rewrite <- E. intros H.
    destruct (listed_entries s p H) as (Hne & Hpiece & Hst & Hc). auto.
Qed.

Lemma allowed_projects_entries_witness :
  let s := mkProjectSettings (lit " alpha ,, beta") None in
  In (lit "beta") (allowed_projects s)
  /\ allowed_projects s = [lit "alpha"; lit "beta"].
Proof.
  intros s.
  assert (H : In (lit "beta") (allowed_projects s)) by (right; left; reflexivity).
  destruct (allowed_projects_entries s (lit "beta") H) as [_ _].
  split; [exact H|reflexivity].
Defined.

(** Writing names down and reading them back: for names that are not
    empty, have no whitespace at either end and hold no comma, the setting
    made by joining them with commas gives exactly these names, in order,
    whatever [azure_devops_project] is. *)
Theorem allowed_projects_of_join (ps : list str) (o : option str) :
  ps <> [] ->
  Forall (fun p => p <> [] /\ stripped p = true /\ ~ In comma p) ps ->
  allowed_projects (mkProjectSettings (join [comma] ps) o) = ps.
Proof.
  intros Hne Hall. unfold allowed_projects. cbn [azure_devops_projects].
  rewrite split_join;
    [|exact Hne|revert Hall; apply List.Forall_impl; tauto].
  assert (Hmap : List.filter nonempty (map strip ps) = ps).
  { clear Hne. induction Hall as [|p ps (Hp & Hs & _) _ IH]; [reflexivity|].
    cbn. rewrite (strip_id p Hs). apply nonempty_true in Hp. rewrite Hp.
    now rewrite IH. }
  rewrite Hmap. destruct ps; [congruence|reflexivity].
Qed.

Lemma allowed_projects_of_join_witness :
  [lit "Web Shop"; lit "infra"] <> []
  /\ Forall (fun p => p <> [] /\ stripped p = true /\ ~ In comma p)
       [lit "Web Shop"; lit "infra"]
  /\ allowed_projects (mkProjectSettings (lit "Web Shop,infra") (Some (lit "x")))
     = [lit "Web Shop"; lit "infra"].
Proof.
  assert (Hne : [lit "Web Shop"; lit "infra"] <> []) by discriminate.
  assert (Hall : Forall (fun p => p <> [] /\ stripped p = true /\ ~ In comma p)
                   [lit "Web Shop"; lit "infra"]).
  { repeat constructor; try discriminate; cbn; intuition discriminate. }
  split; [exact Hne|]. split; [exact Hall|].
  exact (allowed_projects_of_join _ (Some (lit "x")) Hne Hall).
Defined.

(** *** Resolving the project of a call *)

Lemma existsb_eqb (p : str) (ps : list str) :
  existsb (Str.eqb p) ps = true <-> In p ps.
Proof.
  rewrite existsb_exists. split.
  - intros (q & Hin & E). apply eqb_eq in E. now subst.
  - intros Hin. exists p. split; [exact Hin|now apply eqb_eq].
Qed.

Lemma allowed_nonempty_names (s : ProjectSettings) (p : str) :
  In p (allowed_projects s) -> p <> [].
Proof.
  unfold allowed_projects.
  destruct (List.filter nonempty
              (map strip (split comma (azure_devops_projects s))))
    as [|q qs] eqn:E.
  - cbn [negb andb].
    destruct (azure_devops_project s) as [[|c t]|]; cbn; try contradiction.
    intros [<-|[]]. discriminate.
  - cbn [negb andb]. rewrite <- E. intros H. now apply listed_entries in H.
Qed.

(** The allow-list is enforced: [_resolve_project] returns a project only
    if it is in [allowed_projects]; a project given as argument resolves to
    itself exactly when it is in the list; without an argument (or with an
    empty one) the default project resolves exactly when it is in the list;
    an argument that is not a string never resolves. *)
Theorem resolve_project_enforces_allow_list (s : ProjectSettings) :
  (forall arg p, _resolve_project arg s = inl p -> In p (allowed_projects s))
  /\ (forall p q, _resolve_project (Text p) s = inl q
                  -> p <> [] -> q = p)
  /\ (forall p, In p (allowed_projects s)
                -> _resolve_project (Text p) s = inl p)
  /\ (forall p, _resolve_project Falsy s = inl p
                <-> default_project s = Some p /\ In p (allowed_projects s))
  /\ (forall p, _resolve_project (Text []) s = _resolve_project Falsy s
                /\ _resolve_project Other s <> inl p).
Proof.
  assert (Hres : forall p q : str,
             p <> [] ->
             (match allowed_projects s with
              | [] => inr NoAllowedProjects
              | _ => if existsb (Str.eqb p) (allowed_projects s)
                     then inl p else inr NotInAllowedList
              end = inl q :> str + ProjectError)
             <-> q = p /\ In p (allowed_projects s)).
  { intros p q Hp. destruct (allowed_projects s) as [|a l] eqn:Ea.
    - split; [discriminate|intros [_ []]].
    - destruct (existsb (Str.eqb p) (a :: l)) eqn:Ex.
      + apply existsb_eqb in Ex.
        split; [intros H; inversion H; subst; auto|now intros [-> _]].
      + split; [discriminate|]. intros [_ Hin].
        apply existsb_eqb in Hin. congruence. }
  assert (Htext : forall p q, p <> [] ->
             _resolve_project (Text p) s = inl q
             <-> q = p /\ In p (allowed_projects s)).
  { intros [|c t] q Hp; [congruence|]. unfold _resolve_project.
    rewrite <- (Hres (c :: t) q Hp).
    destruct (allowed_projects s); reflexivity. }
  assert (Hfalsy : forall p, _resolve_project Falsy s = inl p
             <-> default_project s = Some p /\ In p (allowed_projects s)).
  { intros p. unfold _resolve_project.
    destruct (default_project s) as [[|c t]|] eqn:Ed.
    - split; [discriminate|]. intros [E Hin]. inversion E; subst.
      now apply allowed_nonempty_names in Hin.
    - transitivity (p = c :: t /\ In (c :: t) (allowed_projects s)).
      + rewrite <- (Hres (c :: t) p) by discriminate.
        destruct (allowed_projects s); reflexivity.
      + split; [intros [-> H]; auto|intros [E H]; inversion E; subst; auto].
    - split; [discriminate|intros [E _]; discriminate]. }
  split; [|split; [|split; [|split]]].
  - intros [|[|c t]|] p H.
    + now apply Hfalsy in H.
    + change (_resolve_project (Text []) s) with (_resolve_project Falsy s) in H.
      now apply Hfalsy in H.
    + apply Htext in H; [|discriminate]. now destruct H as [-> H].
    + unfold _resolve_project in H. destruct (allowed_projects s); discriminate.
  - intros p q H Hp. now apply Htext in H.
  - intros p Hin. apply Htext; [now apply allowed_nonempty_names in Hin|auto].
  - exact Hfalsy.
  - intros p. split; [reflexivity|].
    unfold _resolve_project. destruct (allowed_projects s); discriminate.
Qed.

(** Projects "alpha, beta" with default "gamma": "beta" resolves, "gamma"
    does not, and a call without a project fails, since the default is not
    in the list. *)
Lemma resolve_project_enforces_allow_list_witness :
  let s := mkProjectSettings (lit "alpha, beta") (Some (lit "gamma")) in
  _resolve_project (Text (lit "beta")) s = inl (lit "beta")
  /\ _resolve_project (Text (lit "gamma")) s = inr NotInAllowedList
  /\ default_project s = Some (lit "gamma")
  /\ _resolve_project Falsy s = inr NotInAllowedList.
Proof.
  intros s.
  destruct (resolve_project_enforces_allow_list s) as (_ & _ & Hin & _).
  split; [apply Hin; right; left; reflexivity|].
  split; [reflexivity|]. split; reflexivity.
Defined.


End ConfigFacts.

(** ** Helpers of the tool handlers *)

Module AppFacts.
Import Str Config App.

(** *** Redacting URLs *)

Lemma after_spec (p s r : str) : after p s = Some r <-> s = p ++ r.
Proof.
  revert s. induction p as [|c p IH]; intros s; cbn.
  - split; [now intros [= ->]|now intros ->].
  - destruct s as [|d s]; [split; discriminate|].
    destruct (c =? d)%N eqn:E.
    + apply N.eqb_eq in E. subst d. rewrite IH.
      split; [now intros ->|now intros [= ->]].
    + apply N.eqb_neq in E. split; [discriminate|]. intros [= H]. congruence.
Qed.

(** The pattern matches where a scheme and a visible character stand. *)
Lemma url_at_spec (s : str) :
  url_at s = true
  <-> exists scheme x rest,
        (scheme = lit "https://" \/ scheme = lit "http://")
        /\ s = scheme ++ x :: rest /\ isspace x = false.
Proof.
  unfold url_at. rewrite orb_true_iff. split.
  - intros [H|H].
    + destruct (after (lit "https://") s) as [[|x r]|] eqn:E; try discriminate.
      apply after_spec in E. exists (lit "https://"), x, r.
      cbn in H. apply negb_true_iff in H. auto.
    + destruct (after (lit "http://") s) as [[|x r]|] eqn:E; try discriminate.
      apply after_spec in E. exists (lit "http://"), x, r.
      cbn in H. apply negb_true_iff in H. auto.
  - intros (scheme & x & rest & [->| ->] & -> & Hx); [left|right].
    + assert (E : after (lit "https://") (lit "https://" ++ x :: rest)
                  = Some (x :: rest)) by now apply after_spec.
      rewrite E. cbn. now rewrite Hx.
    + assert (E : after (lit "http://") (lit "http://" ++ x :: rest)
                  = Some (x :: rest)) by now apply after_spec.
      rewrite E. cbn. now rewrite Hx.
Qed.

Lemma url_at_head (c : N) (s : str) :
  url_at (c :: s) = true -> c = 104%N /\ isspace c = false.
Proof.
  intros H. apply url_at_spec in H as (scheme & x & rest & [->| ->] & E & _);
    cbn in E; injection E as -> _; auto.
Qed.

Lemma URL_REDACTED_head :
  URL_REDACTED = 91%N :: lit "URL redacted]".
Proof. reflexivity. Qed.

(** Characters other than "[" at the head of the output were copied. *)
Lemma copied_prefix (p : str) :
  forall s rest : str,
    Forall (fun c => c <> 91%N) p ->
    sub_urls false s = p ++ rest ->
    exists s2, s = p ++ s2 /\ rest = sub_urls false s2.
Proof.
  induction p as [|a p IH]; intros s rest Hp H; [now exists s|].
  inversion Hp as [|? ? Ha Hp']; subst.
  destruct s as [|c s]; [discriminate|]. cbn [sub_urls] in H.
  destruct (url_at (c :: s)).
  - rewrite URL_REDACTED_head in H. cbn [app] in H.
    injection H as H _. congruence.
  - cbn [app] in H. injection H as -> H.
    destruct (IH s rest Hp' H) as (s2 & -> & ->). now exists s2.
Qed.

Lemma sub_urls_first (s : str) (x : N) (rest : str) :
  sub_urls false s = x :: rest -> isspace x = false ->
  exists d s', s = d :: s' /\ isspace d = false.
Proof.
  destruct s as [|d s']; [discriminate|]. cbn [sub_urls].
  destruct (url_at (d :: s')) eqn:E.
  - intros _ _. exists d, s'. split; [reflexivity|].
    now apply url_at_head in E.
  - intros [= <- _] Hx. now exists d, s'.
Qed.

(** Copying a character cannot complete a URL that was not there. *)
Lemma url_at_copied (c : N) (s : str) :
  url_at (c :: sub_urls false s) = true -> url_at (c :: s) = true.
Proof.
  intros H. apply url_at_spec in H as (scheme & x & rest & Hs & E & Hx).
  assert (Hsch : exists scheme', scheme = c :: scheme'
                                 /\ Forall (fun c => c <> 91%N) scheme').
  { destruct Hs as [-> | ->]; cbn in E; injection E as -> _;
      eexists; (split; [reflexivity|]); repeat constructor; discriminate. }
  destruct Hsch as (scheme' & -> & Hno). cbn in E. injection E as E.
  destruct (copied_prefix scheme' s (x :: rest) Hno E) as (s2 & -> & Hx2).
  symmetry in Hx2.
  destruct (sub_urls_first s2 x rest Hx2 Hx) as (d & s' & -> & Hd).
  apply url_at_spec. exists (c :: scheme'), d, s'. auto.
Qed.

Lemma url_at_not_h (c : N) (s : str) : c <> 104%N -> url_at (c :: s) = false.
Proof.
  intros Hc. destruct (url_at (c :: s)) eqn:E; [|reflexivity].
  apply url_at_head in E as [-> _]. congruence.
Qed.

(** No place in the output, in either mode of the scan, matches the
    pattern. *)
Lemma sub_urls_no_url (s : str) :
  forall (in_match : bool) (pre suf : str),
    sub_urls in_match s = pre ++ suf -> url_at suf = false.
Proof.
  assert (Hnil : url_at [] = false) by reflexivity.
  assert (Hcons : forall (o : str) (c : N),
             url_at (c :: o) = false ->
             (forall pre suf, o = pre ++ suf -> url_at suf = false) ->
             forall pre suf, c :: o = pre ++ suf -> url_at suf = false).
  { intros o c Hc Ho [|a pre] suf E; cbn in E; [now subst|].
    injection E as _ E. now apply (Ho pre). }
  induction s as [|c s IH]; intros in_match pre suf E.
  - destruct pre; [|discriminate]. cbn in E. now subst.
  - cbn [sub_urls] in E. destruct in_match.
    + destruct (isspace c) eqn:Hc; [|now apply (IH true pre)].
      revert pre suf E. apply Hcons; [|apply (IH false)].
      destruct (url_at (c :: sub_urls false s)) eqn:Eu; [|reflexivity].
      apply url_at_head in Eu as [_ Eu]. congruence.
    + destruct (url_at (c :: s)) eqn:Hu.
      * unfold URL_REDACTED in E. cbn [lit map String.list_ascii_of_string
          app] in E.
        revert pre suf E.
        repeat (apply Hcons; [apply url_at_not_h; discriminate|]).
        apply (IH true).
      * revert pre suf E. apply Hcons; [|apply (IH false)].
        destruct (url_at (c :: sub_urls false s)) eqn:Eu; [|reflexivity].
        apply url_at_copied in Eu. congruence.
Qed.

(** Nothing that looks like a URL survives: at no position of the
    sanitised message does "http://" or "https://" stand followed by a
    character that is not whitespace. *)
Theorem sanitised_message_has_no_url (message pre suf : str) :
  _sanitise_error_message message = pre ++ suf -> url_at suf = false.
Proof. apply sub_urls_no_url. Qed.

Lemma sanitised_message_has_no_url_witness :
  _sanitise_error_message
    (lit "401 for url: https://dev.azure.com/org/_apis?token=abc (retry)")
  = lit "401 for url: " ++ lit "[URL redacted] (retry)"
  /\ url_at (lit "[URL redacted] (retry)") = false.
Proof.
  assert (E : _sanitise_error_message
                (lit "401 for url: https://dev.azure.com/org/_apis?token=abc (retry)")
              = lit "401 for url: " ++ lit "[URL redacted] (retry)")
    by reflexivity.
  split; [exact E|].
  exact (sanitised_message_has_no_url _ _ _ E).
Defined.

Lemma sub_urls_clean (s : str) :
  (forall pre suf, s = pre ++ suf -> url_at suf = false) ->
  sub_urls false s = s.
Proof.
  induction s as [|c s IH]; intros H; [reflexivity|]. cbn [sub_urls].
  rewrite (H [] (c :: s) eq_refl). f_equal. apply IH.
  intros pre suf E. apply (H (c :: pre)). cbn. now rewrite E.
Qed.

(** A message in which the pattern matches nowhere is returned as it is,
    and so sanitising a sanitised message changes nothing. *)
Theorem sanitise_leaves_clean_messages (message : str) :
  ((forall pre suf, message = pre ++ suf -> url_at suf = false) ->
   _sanitise_error_message message = message)
  /\ _sanitise_error_message (_sanitise_error_message message)
     = _sanitise_error_message message.
Proof.
  split; [apply sub_urls_clean|].
  apply sub_urls_clean. intros pre suf E. now apply (sub_urls_no_url message false pre).
Qed.

Lemma sanitise_leaves_clean_messages_witness :
  _sanitise_error_message (lit "see http:// or https:/x, not a url")
  = lit "see http:// or https:/x, not a url"
  /\ _sanitise_error_message
       (_sanitise_error_message (lit "GET http://a/b?c failed"))
     = lit "GET [URL redacted] failed".
Proof.
  destruct (sanitise_leaves_clean_messages (lit "GET http://a/b?c failed"))
    as [_ H].
  split; [reflexivity|]. rewrite H. reflexivity.
Defined.


(** *** The rate limit of a caller *)

Lemma run_checks_limiter (s : Client.Settings) (calls : list (User * Q)) :
  forall g : option Limiter.RateLimiter,
    run_checks s calls g
    = map (fun ok : bool => if ok then None else Some RATE_LIMIT_ERROR)
        (snd (Limiter.run (map (fun c => (snd c, user_key (fst c))) calls)
                (fst (_get_rate_limiter s g)))).
Proof.
  induction calls as [|[user now] rest IH]; intros g; [reflexivity|].
  cbn [run_checks map Limiter.run fst snd]. unfold _check_rate_limit.
  destruct (Limiter.check now (user_key user) (fst (_get_rate_limiter s g)))
    as [rl' ok].
  rewrite (IH (Some rl')). cbn [_get_rate_limiter fst].
  destruct (Limiter.run _ rl') as [rl2 rs]. reflexivity.
Qed.




(** *** Tool arguments in the log *)

Section SanitiseArgsFacts.

Context {V : Type}.
Variable parameter_keys : V -> option (list string).

Lemma safe_lookup (args : gmap string V) (k : string) :
  (Kept <$> filter (fun kv : string * V => kv.1 <> "parameters"%string) args)
    !! k
  = if decide (k = "parameters"%string) then None else Kept <$> args !! k.
Proof.
  rewrite lookup_fmap. destruct (decide (k = "parameters"%string)) as [->|Hk].
  - rewrite map_lookup_filter_None_2; [reflexivity|].
    right. intros v _ H. now apply H.
  - destruct (args !! k) as [v|] eqn:E; cbn.
    + rewrite (map_lookup_filter_Some_2 _ _ _ v); auto.
    + rewrite map_lookup_filter_None_2; auto.
Qed.


End SanitiseArgsFacts.


End AppFacts.
